(** * Crossword CSP solver (3-optimization/crossword/generate.py)

    A shallow embedding of [CrosswordCreator]: node consistency, [revise],
    AC-3, the [consistent] / [assignment_complete] predicates, the two
    heuristics, the backtracking driver and [letter_grid], followed by the
    properties of the specification stated and settled against that
    embedding, and by further properties of the same code.

    Modelling conventions.
    - A Python [set] is a [gset]; iterating over it is iterating over
      [elements], one fixed but otherwise unspecified order, as in Python.
    - [self.domains] (a dict that is only indexed, assigned and deep-copied)
      is a [gmap variable (gset string)]; a snapshot is the map value itself.
    - An assignment (a dict that is iterated, hence insertion-ordered) is an
      association list with the update-in-place / append-at-end discipline
      of Python dicts.
    - A word is a [string] of ASCII characters, so that [len], indexing and
      the order of [str] are those of Python; the offsets of an overlap are
      natural numbers.
    - [x is not y] on variables is [x ≠ y]: every variable the solver
      handles is one of the objects of [crossword.variables].
    - Python exceptions are results [Raise e]; stateful methods return the
      state they leave behind next to their result, also when they raise.
    - [letter_grid] takes the [height] and [width] it reads from the
      crossword as arguments; its array is a list of rows.
    - The [while] loop of [ac3] and the recursion of [backtrack] run on fuel
      and return [None] when it runs out; [ac3] and [solve] compute enough
      of it (proved below), so that they always return [Some] outcome. *)

From stdpp Require Import gmap strings list fin_maps fin_sets sorting.
From Stdlib Require Import Ascii String.

Open Scope string_scope.
Open Scope nat_scope.
Open Scope list_scope.
Open Scope stdpp_scope.

Set Warnings "-clear-no-such-hyp".

(* ===================================================================== *)
(** ** Outcomes of Python code *)
(* ===================================================================== *)

Inductive exn := KeyError | IndexError | ValueError.

Inductive result (A : Type) :=
  | Ok (a : A)
  | Raise (e : exn).
Arguments Ok {A} a.
Arguments Raise {A} e.

Global Instance result_ret : MRet result := @Ok.
Global Instance result_bind : MBind result := λ A B f m,
  match m with
  | Ok a => f a
  | Raise e => Raise e
  end.

(** [[f(x) for x in l]] with exceptions. *)
Fixpoint result_map {A B} (f : A → result B) (l : list A) : result (list B) :=
  match l with
  | [] => Ok []
  | x :: l' => y ← f x; ys ← result_map f l'; Ok (y :: ys)
  end.

(** [[x for x in l if p(x)]] with exceptions. *)
Fixpoint result_filter {A} (p : A → result bool) (l : list A) : result (list A) :=
  match l with
  | [] => Ok []
  | x :: l' => b ← p x; ys ← result_filter p l'; Ok (if b : bool then x :: ys else ys)
  end.

(** [w[i]] on a [str], for a non-negative index. *)
Definition str_index (w : string) (i : nat) : result ascii :=
  match String.get i w with
  | Some ch => Ok ch
  | None => Raise IndexError
  end.

(** [min(l)] and [max(l)] on a list of numbers. *)
Definition list_min (l : list nat) : result nat :=
  match l with
  | [] => Raise ValueError
  | n :: l' => Ok (foldl Nat.min n l')
  end.

Definition list_max (l : list nat) : result nat :=
  match l with
  | [] => Raise ValueError
  | n :: l' => Ok (foldl Nat.max n l')
  end.

(* ===================================================================== *)
(** ** The structural model (crossword.py, outside the solver) *)
(* ===================================================================== *)

Inductive Direction := ACROSS | DOWN.

(** Modelled from the spec: the [Variable] class of crossword.py is not part
    of the solver's file. A slot is its starting cell (row, column), its
    orientation and its length; equality is on these four components. *)
Record variable := mkVariable {
  var_i : nat;
  var_j : nat;
  direction : Direction;
  length : nat
}.

Global Instance Direction_eq_dec : EqDecision Direction.
Proof. solve_decision. Defined.

Global Instance variable_eq_dec : EqDecision variable.
Proof. solve_decision. Defined.

Global Instance Direction_countable : Countable Direction.
Proof.
  refine (inj_countable' (λ d, match d with ACROSS => true | DOWN => false end)
                         (λ b : bool, if b then ACROSS else DOWN) _).
  by intros [].
Defined.

Global Instance variable_countable : Countable variable.
Proof.
  refine (inj_countable' (λ v, (var_i v, var_j v, direction v, length v))
                         (λ t, match t with (i, j, d, l) => mkVariable i j d l end) _).
  by intros [].
Defined.

(** Modelled from the spec: the [Crossword] object the solver is built on,
    of which generate.py only reads [variables], [words], [overlaps] and
    [neighbors]. [overlaps x y] is the table read at the pair [(x, y)]:
    [None] for "no overlap" and [Some (ix, iy)] for the offsets of the
    shared cell in the two words. The solver only reads it at pairs of
    distinct variables, which the table covers. *)
Record Crossword := mkCrossword {
  variables : gset variable;
  words : gset string;
  overlaps : variable → variable → option (nat * nat);
  neighbors : variable → gset variable
}.

(** Modelled from the spec: what the external collaborator guarantees about
    the table it supplies -- [neighbors] are the variables with a defined
    overlap, and the table is the same read in either direction. *)
Record structure_ok (c : Crossword) : Prop := {
  neighbors_spec : ∀ x v,
    v ∈ neighbors c x ↔ v ∈ variables c ∧ v ≠ x ∧ is_Some (overlaps c v x);
  overlaps_sym : ∀ x y i j,
    overlaps c x y = Some (i, j) → overlaps c y x = Some (j, i)
}.

(* ===================================================================== *)
(** ** Domains and assignments *)
(* ===================================================================== *)

Abbreviation Domains := (gmap variable (gset string)).

(** [self.domains[var]] *)
Definition dom_get (D : Domains) (var : variable) : result (gset string) :=
  match D !! var with
  | Some s => Ok s
  | None => Raise KeyError
  end.

(** An assignment: a dict from variables to words, in insertion order. *)
Abbreviation Assignment := (list (variable * string)).

(** [var in assignment] / [assignment.get(var)] *)
Fixpoint dict_get (k : variable) (d : Assignment) : option string :=
  match d with
  | [] => None
  | (k', v') :: d' => if decide (k = k') then Some v' else dict_get k d'
  end.

(** [assignment[k] = v]: a bound key keeps its place, a new one goes last. *)
Fixpoint dict_set (k : variable) (v : string) (d : Assignment) : Assignment :=
  match d with
  | [] => [(k, v)]
  | (k', v') :: d' =>
      if decide (k = k') then (k, v) :: d' else (k', v') :: dict_set k v d'
  end.

(** [del assignment[k]]: [None] stands for the [KeyError] of a missing key. *)
Fixpoint dict_del (k : variable) (d : Assignment) : option Assignment :=
  match d with
  | [] => None
  | (k', v') :: d' =>
      if decide (k = k') then Some d'
      else d'' ← dict_del k d'; Some ((k', v') :: d'')
  end.

(** [set(assignment.keys())] *)
Definition keys (d : Assignment) : gset variable := list_to_set d.*1.

(** The state a method of the solver works on when it searches:
    the assignment dict it was handed and [self.domains]. *)
Abbreviation State := (Assignment * Domains)%type.

(** What a call of [backtrack] comes to: its result and the state it
    leaves, or [None] when the fuel of the model ran out. *)
Abbreviation Outcome := (option (result (option Assignment) * State)).

Section Solver.

Context (c : Crossword).

(** [__init__]: every variable starts with a copy of the whole vocabulary. *)
Definition init_domains : Domains := gset_to_gmap (words c) (variables c).

(* ===================================================================== *)
(** ** Constraint engine *)
(* ===================================================================== *)

Fixpoint enforce_node_consistency_loop (vars : list variable) (D : Domains)
  : result () * Domains :=
  match vars with
  | [] => (Ok (), D)
  | var :: vars' =>
      match D !! var with
      | None => (Raise KeyError, D)
      | Some s =>
          enforce_node_consistency_loop vars'
            (<[var := filter (λ value, length var = String.length value) s]> D)
      end
  end.

Definition enforce_node_consistency (D : Domains) : result () * Domains :=
  enforce_node_consistency_loop (elements (variables c)) D.

(** [any(x_value[x_index] == y_value[y_index] for y_value in ys)]:
    both subscripts are evaluated for each candidate, left to right, and the
    search stops at the first match. *)
Fixpoint any_match (x_value : string) (x_index y_index : nat) (ys : list string)
  : result bool :=
  match ys with
  | [] => Ok false
  | y_value :: ys' =>
      a ← str_index x_value x_index;
      b ← str_index y_value y_index;
      if decide (a = b) then Ok true else any_match x_value x_index y_index ys'
  end.

(** The loop of [revise] over the values of [x]; the accumulator is
    [(res, tmp_domain)]. [self.domains[y]] is looked up once per value. *)
Fixpoint revise_loop (D : Domains) (y : variable) (x_index y_index : nat)
    (xs : list string) (acc : bool * gset string) : result (bool * gset string) :=
  match xs with
  | [] => Ok acc
  | x_value :: xs' =>
      dy ← dom_get D y;
      b ← any_match x_value x_index y_index (elements dy);
      revise_loop D y x_index y_index xs'
        (if b : bool then (acc.1, {[x_value]} ∪ acc.2) else (true, acc.2))
  end.

Definition revise (x y : variable) (D : Domains) : result bool * Domains :=
  match overlaps c x y with
  | None => (Ok false, D)
  | Some (x_index, y_index) =>
      match dom_get D x with
      | Ok dx =>
          match revise_loop D y x_index y_index (elements dx) (false, ∅) with
          | Ok (res, tmp_domain) => (Ok res, <[x := tmp_domain]> D)
          | Raise e => (Raise e, D)
          end
      | Raise e => (Raise e, D)
      end
  end.

(** The initial list of [ac3] when no arcs are given. *)
Definition all_arcs : list (variable * variable) :=
  x ← elements (variables c);
  y ← elements (variables c);
  if decide (x = y) then [] else [(x, y)].

(** [for neighbor in neighbors(x): if neighbor is not y and
    (neighbor, x) not in arcs: arcs.append((neighbor, x))] *)
Fixpoint enqueue (x y : variable) (ns : list variable)
    (arcs : list (variable * variable)) : list (variable * variable) :=
  match ns with
  | [] => arcs
  | neighbor :: ns' =>
      if decide (neighbor ≠ y ∧ (neighbor, x) ∉ arcs)
      then enqueue x y ns' (arcs ++ [(neighbor, x)])
      else enqueue x y ns' arcs
  end.

(** The [while len(arcs)] loop; one unit of fuel per iteration. *)
Fixpoint ac3_loop (fuel : nat) (arcs : list (variable * variable)) (D : Domains)
  : option (result bool * Domains) :=
  match fuel with
  | 0 => None
  | S fuel' =>
      match arcs with
      | [] => Some (Ok true, D)
      | (x, y) :: arcs' =>
          match revise x y D with
          | (Ok true, D') =>
              match dom_get D' x with
              | Ok dx =>
                  if decide (size dx = 0) then Some (Ok false, D')
                  else ac3_loop fuel' (enqueue x y (elements (neighbors c x)) arcs') D'
              | Raise e => Some (Raise e, D')
              end
          | (Ok false, D') => ac3_loop fuel' arcs' D'
          | (Raise e, D') => Some (Raise e, D')
          end
      end
  end.

(** Sum of the sizes of all domains. *)
Definition total_size (D : Domains) : nat :=
  sum_list_with (λ p, size p.2) (map_to_list D).

(** Largest number of neighbours of a variable that has a domain. *)
Definition max_degree (D : Domains) : nat :=
  max_list ((λ x, size (neighbors c x)) <$> elements (dom D)).

(** Iterations that suffice for the loop of [ac3]: every revision that
    re-enqueues arcs removes a word, and adds at most [max_degree] arcs. *)
Definition ac3_fuel (arcs : list (variable * variable)) (D : Domains) : nat :=
  S (total_size D * S (max_degree D) + List.length arcs).

Definition ac3 (arcs : option (list (variable * variable))) (D : Domains)
  : option (result bool * Domains) :=
  let arcs := match arcs with None => all_arcs | Some arcs => arcs end in
  ac3_loop (ac3_fuel arcs D) arcs D.

(** [all(var in assignment for var in self.crossword.variables)] *)
Definition assignment_complete (A : Assignment) : bool :=
  forallb (λ var, bool_decide (is_Some (dict_get var A))) (elements (variables c)).

(** The inner loop of [consistent] ([for y in assignment]), for a fixed [x];
    [Ok true] means that the loop ran to its end. *)
Fixpoint consistent_inner (x : variable) (wx : string) (ys : Assignment)
  : result bool :=
  match ys with
  | [] => Ok true
  | (y, wy) :: ys' =>
      if decide (x = y) then consistent_inner x wx ys'
      else
        match overlaps c x y with
        | None => consistent_inner x wx ys'
        | Some (x_index, y_index) =>
            a ← str_index wx x_index;
            b ← str_index wy y_index;
            if decide (a = b) then consistent_inner x wx ys' else Ok false
        end
  end.

(** The outer loop of [consistent] ([for x in assignment]). *)
Fixpoint consistent_outer (xs A : Assignment) : result bool :=
  match xs with
  | [] => Ok true
  | (x, wx) :: xs' =>
      if decide (length x = String.length wx) then
        b ← consistent_inner x wx A;
        if b : bool then consistent_outer xs' A else Ok false
      else Ok false
  end.

Definition consistent (A : Assignment) : result bool :=
  if decide (List.length A = size (list_to_set A.*2 : gset string))
  then consistent_outer A A
  else Ok false.

(* ===================================================================== *)
(** ** Heuristics *)
(* ===================================================================== *)

(** [for neighbor_value in self.domains[neighbor] - {value}], with the
    running counter [ruled_out_values]. *)
Fixpoint count_neighbor_values (var neighbor : variable) (value : string)
    (nvs : list string) (ruled_out_values : nat) : result nat :=
  match nvs with
  | [] => Ok ruled_out_values
  | neighbor_value :: nvs' =>
      match overlaps c var neighbor with
      | Some (index, neighbor_index) =>
          a ← str_index value index;
          b ← str_index neighbor_value neighbor_index;
          count_neighbor_values var neighbor value nvs'
            (if decide (a = b) then ruled_out_values else S ruled_out_values)
      | None => count_neighbor_values var neighbor value nvs' ruled_out_values
      end
  end.

(** [for neighbor in self.crossword.neighbors(var) - set(assignment.keys())] *)
Fixpoint count_neighbors (D : Domains) (var : variable) (value : string)
    (ns : list variable) (ruled_out_values : nat) : result nat :=
  match ns with
  | [] => Ok ruled_out_values
  | neighbor :: ns' =>
      dn ← dom_get D neighbor;
      r ← count_neighbor_values var neighbor value (elements (dn ∖ {[value]}))
            (if decide (value ∈ dn) then S ruled_out_values else ruled_out_values);
      count_neighbors D var value ns' r
  end.

(** The counter appended to [ruled_out_values_counters] for [value]. *)
Definition ruled_out (var : variable) (A : Assignment) (D : Domains)
    (value : string) : result nat :=
  count_neighbors D var value (elements (neighbors c var ∖ keys A)) 0.

(** Python's order on [str] (by code point) and on [(int, str)] tuples. *)
Definition str_le (s t : string) : Prop := String.leb s t = true.

Definition tuple_le (p q : nat * string) : Prop :=
  p.1 < q.1 ∨ (p.1 = q.1 ∧ str_le p.2 q.2).

Global Instance tuple_le_dec p q : Decision (tuple_le p q).
Proof. unfold tuple_le, str_le. apply _. Defined.

(** [sorted(l, reverse=True)]: largest tuple first. *)
Definition sorted_reverse (l : list (nat * string)) : list (nat * string) :=
  merge_sort (flip tuple_le) l.

Definition order_domain_values (var : variable) (A : Assignment) (D : Domains)
  : result (list string) :=
  dv ← dom_get D var;
  let domains := elements dv in
  ruled_out_values_counters ← result_map (ruled_out var A D) domains;
  Ok (sorted_reverse (zip ruled_out_values_counters domains)).*2.

Definition select_unassigned_variable (A : Assignment) (D : Domains)
  : result variable :=
  let unassigned_variables := elements (variables c ∖ keys A) in
  sizes ← result_map (λ var, dv ← dom_get D var; Ok (size dv)) unassigned_variables;
  min_values ← list_min sizes;
  selected_variables ←
    result_filter (λ var, dv ← dom_get D var; Ok (bool_decide (size dv = min_values)))
      unassigned_variables;
  selected_variables ←
    (if decide (List.length selected_variables ≠ 1) then
       max_neighbors ← list_max ((λ var, size (neighbors c var)) <$> selected_variables);
       Ok (filter (λ var, size (neighbors c var) = max_neighbors) selected_variables)
     else Ok selected_variables);
  match selected_variables with
  | [] => Raise IndexError
  | var :: _ => Ok var
  end.

(* ===================================================================== *)
(** ** Search driver *)
(* ===================================================================== *)

(** [[(neighbor, assigned_var) for assigned_var in assignment
      for neighbor in self.crossword.neighbors(assigned_var)]] *)
Definition assigned_arcs (A : Assignment) : list (variable * variable) :=
  assigned_var ← A.*1;
  neighbor ← elements (neighbors c assigned_var);
  [(neighbor, assigned_var)].

(** One iteration of the [for value in ...] loop of [backtrack] for the
    selected [var], with the recursive call as a parameter.
    [Ok (Some res)] is the early [return res]; [Ok None] means that the
    iteration fell through and the loop goes on from the state returned. *)
Definition try_value (rec : Assignment → Domains → Outcome)
    (var : variable) (value : string) (A : Assignment) (D : Domains) : Outcome :=
  let A1 := dict_set var value A in
  match consistent A1 with
  | Ok true =>
      let tmp_domains := D in
      let D1 := <[var := {[value]}]> D in
      match ac3 (Some (assigned_arcs A1)) D1 with
      | Some (Ok _, D2) =>
          match rec A1 D2 with
          | Some (Ok None, (A2, _)) => Some (Ok None, (A2, tmp_domains))
          | r => r
          end
      | Some (Raise e, D2) => Some (Raise e, (A1, D2))
      | None => None
      end
  | Ok false => Some (Ok None, (A1, D))
  | Raise e => Some (Raise e, (A1, D))
  end.

(** The whole loop: [Ok None] means that it ran to its end. *)
Fixpoint try_values (rec : Assignment → Domains → Outcome)
    (var : variable) (values : list string) (A : Assignment) (D : Domains) : Outcome :=
  match values with
  | [] => Some (Ok None, (A, D))
  | value :: values' =>
      match try_value rec var value A D with
      | Some (Ok None, (A', D')) => try_values rec var values' A' D'
      | r => r
      end
  end.

(** The body of [backtrack], with the recursive call as a parameter. *)
Definition backtrack_body (rec : Assignment → Domains → Outcome)
    (A : Assignment) (D : Domains) : Outcome :=
  if assignment_complete A then Some (Ok (Some A), (A, D))
  else
    match select_unassigned_variable A D with
    | Ok var =>
        match order_domain_values var A D with
        | Ok values =>
            match try_values rec var values A D with
            | Some (Ok None, (A', D')) =>
                match dict_del var A' with
                | Some A'' => Some (Ok None, (A'', D'))
                | None => Some (Raise KeyError, (A', D'))
                end
            | r => r
            end
        | Raise e => Some (Raise e, (A, D))
        end
    | Raise e => Some (Raise e, (A, D))
    end.

(** [backtrack], unfolded to recursion depth [fuel]. *)
Fixpoint backtrack (fuel : nat) (A : Assignment) (D : Domains) : Outcome :=
  match fuel with
  | 0 => None
  | S fuel' => backtrack_body (backtrack fuel') A D
  end.

(** Each level of the recursion binds one more variable. *)
Definition backtrack_fuel (A : Assignment) : nat :=
  S (size (variables c ∖ keys A)).

(** [solve]: the results of [enforce_node_consistency] and [ac3] are
    dropped, their effect on [self.domains] and their exceptions are not. *)
Definition solve : Outcome :=
  match enforce_node_consistency init_domains with
  | (Ok _, D1) =>
      match ac3 None D1 with
      | Some (Ok _, D2) => backtrack (backtrack_fuel []) [] D2
      | Some (Raise e, D2) => Some (Raise e, ([], D2))
      | None => None
      end
  | (Raise e, D1) => Some (Raise e, ([], D1))
  end.

End Solver.

(* ===================================================================== *)
(** ** The letter grid *)
(* ===================================================================== *)

(** The 2D array of [letter_grid]: a list of rows, each a list of cells
    holding [None] or a letter. The rows are built by a comprehension, so
    no two of them are the same list object. *)
Abbreviation Grid := (list (list (option ascii))).

(** [letters[i][j] = ch]: reading the row and writing the cell both raise
    [IndexError] past the end (all indices are non-negative here). *)
Definition grid_set (letters : Grid) (i j : nat) (ch : ascii) : result Grid :=
  match letters !! i with
  | None => Raise IndexError
  | Some row =>
      if decide (j < List.length row)
      then Ok (<[i := <[j := Some ch]> row]> letters)
      else Raise IndexError
  end.

(** [for k in range(len(word))], over the offsets [ks] still to come. *)
Fixpoint letter_grid_word (variable : variable) (word : string) (ks : list nat)
    (letters : Grid) : result Grid :=
  match ks with
  | [] => Ok letters
  | k :: ks' =>
      let i := var_i variable + (if decide (direction variable = DOWN) then k else 0) in
      let j := var_j variable + (if decide (direction variable = ACROSS) then k else 0) in
      ch ← str_index word k;
      letters ← grid_set letters i j ch;
      letter_grid_word variable word ks' letters
  end.

(** [for variable, word in assignment.items()] *)
Fixpoint letter_grid_items (items : Assignment) (letters : Grid) : result Grid :=
  match items with
  | [] => Ok letters
  | (variable, word) :: items' =>
      letters ← letter_grid_word variable word (seq 0 (String.length word)) letters;
      letter_grid_items items' letters
  end.

(** [letter_grid], for a crossword of the given [height] and [width]. *)
Definition letter_grid (height width : nat) (A : Assignment) : result Grid :=
  letter_grid_items A (replicate height (replicate width None)).

(* ===================================================================== *)
(** ** Vocabulary of the specification *)
(* ===================================================================== *)

(** [shrinks D' D]: [D'] has no variable that [D] lacks, and each of its
    domains is a subset of the one [D] gives to the same variable. *)
Definition shrinks (D' D : Domains) : Prop :=
  ∀ v s', D' !! v = Some s' → ∃ s, D !! v = Some s ∧ s' ⊆ s.

(** Two words carry the same letter at a pair of offsets. *)
Definition agree (wx wy : string) (ix iy : nat) : Prop :=
  ∃ ch, String.get ix wx = Some ch ∧ String.get iy wy = Some ch.

(** A word of [x] passes, or fails, the test that [revise] makes against
    the domain of [y] in the store [D]. *)
Definition supported (D : Domains) (y : variable) (ix iy : nat) (w : string) : Prop :=
  ∃ dy, D !! y = Some dy ∧ any_match w ix iy (elements dy) = Ok true.

Definition unsupported (D : Domains) (y : variable) (ix iy : nat) (w : string) : Prop :=
  ∃ dy, D !! y = Some dy ∧ any_match w ix iy (elements dy) = Ok false.

Definition nonempty_domains (D : Domains) : Prop :=
  ∀ v dv, D !! v = Some dv → dv ≠ ∅.

(** A recursive call that, when it reports failure, hands back the
    assignment and the domains it was given. *)
Definition restoring (rec : Assignment → Domains → Outcome) : Prop :=
  ∀ A D A' D', rec A D = Some (Ok None, (A', D')) → A' = A ∧ D' = D.

(** The binding left by a loop that ran over [values] to its end. *)
Definition rebound (var : variable) (values : list string) (A : Assignment) : Assignment :=
  match last values with
  | Some value => dict_set var value A
  | None => A
  end.

Section Vocabulary.

Context (c : Crossword).

(** What the specification asks of an assignment: the bound words are
    pairwise distinct, each has the length of its variable, and two bound
    variables with a defined overlap carry the same letter there. *)
Record valid_assignment (A : Assignment) : Prop := {
  valid_distinct : NoDup A.*2;
  valid_length : ∀ x wx, (x, wx) ∈ A → length x = String.length wx;
  valid_overlap : ∀ x wx y wy i j,
    (x, wx) ∈ A → (y, wy) ∈ A → x ≠ y → overlaps c x y = Some (i, j) →
    agree wx wy i j
}.

(** Every variable of the crossword is bound. *)
Definition complete (A : Assignment) : Prop :=
  ∀ var, var ∈ variables c → is_Some (dict_get var A).

(** A recursive call that only returns complete, consistent assignments
    when it is started on a consistent one. *)
Definition sound (rec : Assignment → Domains → Outcome) : Prop :=
  ∀ A D res st, rec A D = Some (Ok (Some res), st) → consistent c A = Ok true →
    complete res ∧ consistent c res = Ok true.

(** Every word left to [x] has a partner left to [y] that carries the same
    letter in the shared cell. *)
Definition arc_consistent (D : Domains) (x y : variable) : Prop :=
  ∀ ix iy dx wx, overlaps c x y = Some (ix, iy) → D !! x = Some dx → wx ∈ dx →
    ∃ dy wy, D !! y = Some dy ∧ wy ∈ dy ∧ agree wx wy ix iy.

(** The invariant of the work list of [ac3]: an arc between two distinct
    variables of the crossword is either pending or already consistent. *)
Definition pending_or_consistent (arcs : list (variable * variable)) (D : Domains) : Prop :=
  ∀ x y, x ∈ variables c → y ∈ variables c → x ≠ y →
    (x, y) ∈ arcs ∨ arc_consistent D x y.

End Vocabulary.

(* ===================================================================== *)
(** ** Solutions of a crossword *)
(* ===================================================================== *)

Section Solutions.

Context (c : Crossword).

(** A solution gives each variable a word of the vocabulary that has its
    length, different variables different words, and two variables with a
    defined overlap words that carry the same letter in the shared cell. *)
Record solution (s : variable → string) : Prop := {
  solution_words : ∀ x, x ∈ variables c → s x ∈ words c;
  solution_length : ∀ x, x ∈ variables c → length x = String.length (s x);
  solution_distinct : ∀ x y,
    x ∈ variables c → y ∈ variables c → s x = s y → x = y;
  solution_overlap : ∀ x y i j,
    x ∈ variables c → y ∈ variables c → x ≠ y → overlaps c x y = Some (i, j) →
    agree (s x) (s y) i j
}.

(** The store still has the word of every variable. *)
Definition admits (D : Domains) (s : variable → string) : Prop :=
  ∀ x, x ∈ variables c → ∃ dx, D !! x = Some dx ∧ s x ∈ dx.

(** The assignment binds variables of the crossword, each once, to their
    words. *)
Definition extends (A : Assignment) (s : variable → string) : Prop :=
  NoDup A.*1 ∧ ∀ x w, (x, w) ∈ A → x ∈ variables c ∧ s x = w.

(** Arcs between two distinct variables of the crossword. *)
Definition proper_arcs (arcs : list (variable * variable)) : Prop :=
  ∀ x y, (x, y) ∈ arcs → x ∈ variables c ∧ y ∈ variables c ∧ x ≠ y.

(** A recursive call that reports failure only when no solution extends
    the assignment within the domains it was given. *)
Definition exhaustive (rec : Assignment → Domains → Outcome) : Prop :=
  ∀ A D st s, rec A D = Some (Ok None, st) →
    solution s → extends A s → admits D s → False.

(** The assignment binds variables of the crossword, each once, to words
    of the vocabulary. *)
Definition well_formed (A : Assignment) : Prop :=
  NoDup A.*1 ∧ ∀ x w, (x, w) ∈ A → x ∈ variables c ∧ w ∈ words c.

(** A recursive call that returns well-formed assignments when it is
    started on one, with domains drawn from the vocabulary. *)
Definition well_forming (rec : Assignment → Domains → Outcome) : Prop :=
  ∀ A D res st, rec A D = Some (Ok (Some res), st) →
    well_formed A → shrinks D (init_domains c) → well_formed res.

(** A recursive call that keeps what it returned when it is unfolded
    deeper. *)
Definition below (rec rec' : Assignment → Domains → Outcome) : Prop :=
  ∀ A D r, rec A D = Some r → rec' A D = Some r.

(** A recursive call that, when it returns an assignment, returns the dict
    it was given, completed, with the bindings it had still in front. *)
Definition extending (rec : Assignment → Domains → Outcome) : Prop :=
  ∀ A D res st, rec A D = Some (Ok (Some res), st) →
    st.1 = res ∧ A `prefix_of` res ∧ complete c res.

End Solutions.

(** The cell that [letter_grid] computes for the letter at offset [k] of a
    word bound to [variable]: [k] rows down for a [DOWN] slot, [k] columns
    right for an [ACROSS] one. *)
Definition cell_of (variable : variable) (k : nat) : nat * nat :=
  (var_i variable + (if decide (direction variable = DOWN) then k else 0),
   var_j variable + (if decide (direction variable = ACROSS) then k else 0)).

(** A binding writes the letter [ch] to the cell (row [i], column [j]). *)
Definition writes (item : variable * string) (i j : nat) (ch : ascii) : Prop :=
  ∃ k, String.get k item.2 = Some ch ∧ cell_of item.1 k = (i, j).

(** A binding lies within a grid of the given size. *)
Definition fits (height width : nat) (item : variable * string) : Prop :=
  ∀ k, k < String.length item.2 →
    (cell_of item.1 k).1 < height ∧ (cell_of item.1 k).2 < width.

(** Read the cell (row [i], column [j]) of a grid. *)
Definition cell (letters : Grid) (i j : nat) : option (option ascii) :=
  row ← letters !! i; row !! j.

(** A grid of [height] rows of [width] cells each. *)
Definition grid_shape (height width : nat) (letters : Grid) : Prop :=
  List.length letters = height ∧
  ∀ i row, letters !! i = Some row → List.length row = width.

(** The letter, if any, that a binding writes to the cell (row [i],
    column [j]): the only offset that can reach the cell is tried. *)
Definition written (item : variable * string) (i j : nat) : option ascii :=
  let k := (i - var_i item.1) + (j - var_j item.1) in
  if decide (cell_of item.1 k = (i, j)) then String.get k item.2 else None.

(* ===================================================================== *)
(** ** Example crosswords *)
(* ===================================================================== *)

(** The overlap table as crossword.py fills it: an entry for each ordered
    pair of variables that share a cell, "no overlap" for the others. *)
Definition table_overlaps (t : list ((variable * variable) * (nat * nat)))
    (x y : variable) : option (nat * nat) :=
  (list_to_map t : gmap (variable * variable) (nat * nat)) !! (x, y).

Definition crossword_of (vars : list variable) (vocabulary : list string)
    (t : list ((variable * variable) * (nat * nat))) : Crossword :=
  {| variables := list_to_set vars;
     words := list_to_set vocabulary;
     overlaps := table_overlaps t;
     neighbors := λ x,
       filter (λ v, v ≠ x ∧ is_Some (table_overlaps t v x)) (list_to_set vars) |}.

(** The domains of a crossword when [solve] calls [backtrack]. *)
Definition start_domains (c : Crossword) : Domains :=
  match ac3 c None (enforce_node_consistency c (init_domains c)).2 with
  | Some (_, D) => D
  | None => ∅
  end.

(** One slot of three cells, and no word of three letters. *)
Definition row3 : variable := mkVariable 0 0 ACROSS 3.

Definition no_fit : Crossword := crossword_of [row3] ["AB"] [].

(** Two slots of three cells in an L: the last cell of the row is the
    first cell of the column. *)
Definition col3 : variable := mkVariable 0 2 DOWN 3.

Definition cat_tar : Crossword :=
  crossword_of [row3; col3] ["CAT"; "TAR"]
    [((row3, col3), (2, 0)); ((col3, row3), (0, 2))].

(** Two slots of three cells that share their first cell. *)
Definition left3 : variable := mkVariable 0 0 DOWN 3.

Definition corner : Crossword :=
  crossword_of [row3; left3] ["AAA"; "AAB"; "BAA"]
    [((row3, left3), (0, 0)); ((left3, row3), (0, 0))].

(** Two rows of three cells that do not touch, and a single word. *)
Definition low3 : variable := mkVariable 2 0 ACROSS 3.

Definition twins : Crossword := crossword_of [row3; low3] ["ABC"] [].

(** A ring of four slots of different lengths on a grid of 5 rows and 6
    columns: [top] is row 0 (columns 0-2), [left] column 0 (rows 0-3),
    [right] column 2 (rows 0-4) and [mid] row 2 (columns 0-5). *)
Definition top : variable := mkVariable 0 0 ACROSS 3.
Definition left : variable := mkVariable 0 0 DOWN 4.
Definition right : variable := mkVariable 0 2 DOWN 5.
Definition mid : variable := mkVariable 2 0 ACROSS 6.

Definition ring : Crossword :=
  crossword_of [top; left; right; mid]
    ["AAA"; "BBB"; "AACA"; "ABCA"; "BBDB"; "AADAA"; "ABDAA"; "BBCBB";
     "CCCCCC"; "CACCCC"; "DDDDDD"]
    [((top, left), (0, 0)); ((left, top), (0, 0));
     ((top, right), (2, 0)); ((right, top), (0, 2));
     ((mid, left), (0, 2)); ((left, mid), (2, 0));
     ((mid, right), (2, 2)); ((right, mid), (2, 2))].

(** The domains of [ring] when the search starts: node and arc consistent,
    nothing to prune. *)
Definition ring_domains : Domains :=
  list_to_map
    [(top, {["AAA"; "BBB"]}); (left, {["AACA"; "ABCA"; "BBDB"]});
     (right, {["AADAA"; "ABDAA"; "BBCBB"]});
     (mid, {["CCCCCC"; "CACCCC"; "DDDDDD"]})].

(** The domains of [ring] after [top] is bound to ["BBB"] and the arcs are
    propagated: [mid] has no word left. *)
Definition ring_domains_BBB : Domains :=
  list_to_map
    [(top, {["BBB"]}); (left, {["BBDB"]}); (right, {["BBCBB"]}); (mid, ∅)].

(** [ring] with one more word of six letters, CCDCCC, which makes it
    solvable: AAA on [top], AACA on [left], AADAA on [right] and CCDCCC on
    [mid]. *)
Definition ring_solvable : Crossword :=
  crossword_of [top; left; right; mid]
    ["AAA"; "BBB"; "AACA"; "ABCA"; "BBDB"; "AADAA"; "ABDAA"; "BBCBB";
     "CCCCCC"; "CACCCC"; "DDDDDD"; "CCDCCC"]
    [((top, left), (0, 0)); ((left, top), (0, 0));
     ((top, right), (2, 0)); ((right, top), (0, 2));
     ((mid, left), (0, 2)); ((left, mid), (2, 0));
     ((mid, right), (2, 2)); ((right, mid), (2, 2))].

Definition ring_solution (x : variable) : string :=
  if decide (x = top) then "AAA"
  else if decide (x = left) then "AACA"
  else if decide (x = right) then "AADAA"
  else "CCDCCC".

(** The domains of [ring_solvable] when the search starts: node and arc
    consistent, nothing to prune. *)
Definition ring_solvable_domains : Domains :=
  list_to_map
    [(top, {["AAA"; "BBB"]}); (left, {["AACA"; "ABCA"; "BBDB"]});
     (right, {["AADAA"; "ABDAA"; "BBCBB"]});
     (mid, {["CCCCCC"; "CACCCC"; "DDDDDD"; "CCDCCC"]})].

(* ===================================================================== *)
(** ** Generic facts: results, dicts, domain stores *)
(* ===================================================================== *)

Lemma bind_Ok {A B} (m : result A) (f : A → result B) b :
  m ≫= f = Ok b ↔ ∃ a, m = Ok a ∧ f a = Ok b.
Proof.
  destruct m; simpl; split; try naive_solver.
Qed.

Lemma dom_get_Ok (D : Domains) x s : dom_get D x = Ok s ↔ D !! x = Some s.
Proof. unfold dom_get. destruct (D !! x); naive_solver. Qed.

Lemma str_index_Ok w i ch : str_index w i = Ok ch ↔ String.get i w = Some ch.
Proof. unfold str_index. destruct (String.get i w); naive_solver. Qed.

Lemma result_map_length {A B} (f : A → result B) l ys :
  result_map f l = Ok ys → List.length ys = List.length l.
Proof.
  revert ys. induction l as [|x l IH]; intros ys H; simpl in H.
  - by inversion H.
  - apply bind_Ok in H as (y & _ & H). apply bind_Ok in H as (ys' & Hys & H).
    inversion H; subst. simpl. f_equal. by apply IH.
Qed.

Lemma result_filter_elem_of {A} (p : A → result bool) l ys x :
  result_filter p l = Ok ys → x ∈ ys ↔ x ∈ l ∧ p x = Ok true.
Proof.
  revert ys. induction l as [|a l IH]; intros ys H; simpl in H.
  - inversion H; subst. set_solver.
  - apply bind_Ok in H as (b & Hb & H). apply bind_Ok in H as (ys' & Hys & H).
    inversion H; subst. specialize (IH _ Hys).
    destruct b.
    + rewrite !elem_of_cons, IH. split.
      * intros [->|[? ?]]; auto.
      * intros [[->|?] ?]; auto.
    + rewrite elem_of_cons, IH. split.
      * intros [? ?]; auto.
      * intros [[->|?] ?]; [congruence | auto].
Qed.

(** *** Insertion-ordered dicts *)

Lemma dict_get_Some_elem_of k v (d : Assignment) :
  dict_get k d = Some v → (k, v) ∈ d.
Proof.
  induction d as [|[k' v'] d IH]; csimpl; [done|].
  case_decide; [intros [= ->]; subst; left | right; auto].
Qed.

Lemma dict_get_None k (d : Assignment) : dict_get k d = None ↔ k ∉ keys d.
Proof.
  unfold keys. induction d as [|[k' v'] d IH]; csimpl; [set_solver|].
  case_decide; subst; [set_solver|]. rewrite IH. set_solver.
Qed.

Lemma dict_get_is_Some k (d : Assignment) : is_Some (dict_get k d) ↔ k ∈ keys d.
Proof.
  rewrite <- not_eq_None_Some, dict_get_None.
  destruct (decide (k ∈ keys d)); naive_solver.
Qed.

Lemma dict_get_set k v (d : Assignment) : dict_get k (dict_set k v d) = Some v.
Proof.
  induction d as [|[k' v'] d IH]; csimpl; repeat (case_decide; simpl); try done.
Qed.

Lemma keys_dict_set k v (d : Assignment) : keys (dict_set k v d) = {[k]} ∪ keys d.
Proof.
  unfold keys. induction d as [|[k' v'] d IH]; csimpl; [set_solver|].
  case_decide; subst; csimpl; [set_solver|]. rewrite IH. set_solver.
Qed.

Lemma dict_set_set k v v' (d : Assignment) :
  dict_set k v' (dict_set k v d) = dict_set k v' d.
Proof.
  induction d as [|[k' w] d IH]; csimpl; repeat (case_decide; simpl); congruence.
Qed.

Lemma dict_set_fresh k v (d : Assignment) : k ∉ keys d → dict_set k v d = d ++ [(k, v)].
Proof.
  unfold keys. induction d as [|[k' w] d IH]; csimpl; [done|].
  intros Hk. case_decide; [set_solver|]. f_equal. apply IH. set_solver.
Qed.

Lemma dict_del_fresh_app k v (d : Assignment) :
  k ∉ keys d → dict_del k (d ++ [(k, v)]) = Some d.
Proof.
  unfold keys. induction d as [|[k' w] d IH]; csimpl.
  - intros _. by case_decide.
  - intros Hk. case_decide; [set_solver|]. rewrite IH; [done | set_solver].
Qed.

Lemma dict_del_None k (d : Assignment) : dict_del k d = None ↔ k ∉ keys d.
Proof.
  unfold keys. induction d as [|[k' w] d IH]; csimpl; [set_solver|].
  case_decide; subst; [set_solver|].
  destruct (dict_del k d) as [l|]; csimpl.
  - split; [done|]. intros Hk.
    assert (Some l = None) as Hl by (apply IH; set_solver). done.
  - split; [|done]. intros _.
    assert (k ∉ (list_to_set d.*1 : gset variable)) by (by apply IH). set_solver.
Qed.

Lemma dict_set_NoDup k v (d : Assignment) : NoDup d.*1 → NoDup (dict_set k v d).*1.
Proof.
  induction d as [|[k' w] d IH]; csimpl; intros Hd.
  - apply NoDup_singleton.
  - apply NoDup_cons in Hd as [Hk Hd]. case_decide; subst; csimpl.
    + by apply NoDup_cons.
    + apply NoDup_cons. split; [|by apply IH].
      intros Hin. apply Hk.
      assert (k' ∈ keys (dict_set k v d)) as Hin' by (unfold keys; set_solver).
      rewrite keys_dict_set in Hin'. unfold keys in Hin'. set_solver.
Qed.

(** *** Domain stores that only lose words *)

Lemma shrinks_refl D : shrinks D D.
Proof. intros v s' H. eauto. Qed.

Lemma shrinks_trans D1 D2 D3 : shrinks D1 D2 → shrinks D2 D3 → shrinks D1 D3.
Proof.
  intros H12 H23 v s1 H1.
  destruct (H12 _ _ H1) as (s2 & H2 & Hs12).
  destruct (H23 _ _ H2) as (s3 & H3 & Hs23).
  exists s3. split; [done | set_solver].
Qed.

Lemma shrinks_insert (D : Domains) x s t :
  D !! x = Some s → t ⊆ s → shrinks (<[x := t]> D) D.
Proof.
  intros Hx Hts v s'. rewrite lookup_insert. case_decide; subst.
  - intros [= <-]. eauto.
  - eauto.
Qed.

(* ===================================================================== *)
(** ** Constraint engine: what [revise] and the loops compute *)
(* ===================================================================== *)

Lemma any_match_true wx ix iy ys :
  any_match wx ix iy ys = Ok true → ∃ wy, wy ∈ ys ∧ agree wx wy ix iy.
Proof.
  induction ys as [|wy ys IH]; simpl; [done|]. intros H.
  apply bind_Ok in H as (a & Ha & H). apply bind_Ok in H as (b & Hb & H).
  apply str_index_Ok in Ha, Hb. case_decide; subst.
  - exists wy. split; [left | by exists b].
  - destruct (IH H) as (wy' & ? & ?). exists wy'. split; [by right | done].
Qed.

Lemma any_match_false wx ix iy ys :
  any_match wx ix iy ys = Ok false → ∀ wy, wy ∈ ys → ¬ agree wx wy ix iy.
Proof.
  induction ys as [|wy ys IH]; simpl; intros H wy' Hin; [by apply elem_of_nil in Hin|].
  apply bind_Ok in H as (a & Ha & H). apply bind_Ok in H as (b & Hb & H).
  apply str_index_Ok in Ha, Hb. case_decide; [done|].
  apply elem_of_cons in Hin as [->|Hin]; [|by apply IH].
  intros (ch & Hx & Hy). congruence.
Qed.

Lemma supported_unsupported D y ix iy w :
  supported D y ix iy w → unsupported D y ix iy w → False.
Proof. intros (dy & ? & ?) (dy' & ? & ?). congruence. Qed.

Lemma revise_loop_spec D y ix iy xs b acc res tmp :
  revise_loop D y ix iy xs (b, acc) = Ok (res, tmp) →
  (∀ w, w ∈ tmp ↔ w ∈ acc ∨ (w ∈ xs ∧ supported D y ix iy w)) ∧
  (res = true ↔ b = true ∨ ∃ w, w ∈ xs ∧ unsupported D y ix iy w) ∧
  (∀ w, w ∈ xs → supported D y ix iy w ∨ unsupported D y ix iy w).
Proof.
  revert b acc. induction xs as [|x xs IH]; intros b acc H; simpl in H.
  - inversion H; subst. split; [set_solver|]. split.
    + split; [auto|]. intros [?|(w & Hw & _)]; [done | by apply elem_of_nil in Hw].
    + intros w Hw. by apply elem_of_nil in Hw.
  - apply bind_Ok in H as (dy & Hdy & H). apply bind_Ok in H as (m & Hm & H).
    apply dom_get_Ok in Hdy.
    destruct m; simpl in H; apply IH in H as (Htmp & Hres & Hall).
    + assert (supported D y ix iy x) as Hx by (by exists dy).
      split; [|split].
      * intros w. rewrite Htmp, elem_of_union, elem_of_singleton, elem_of_cons.
        split; [|naive_solver].
        intros [[->|?]|[? ?]]; auto.
      * rewrite Hres. split.
        { intros [?|(w & Hw & ?)]; [by left|]. right. exists w. split; [by right | done]. }
        intros [?|(w & Hw & Hun)]; [by left|].
        apply elem_of_cons in Hw as [->|Hw]; [|right; eauto].
        exfalso. by eapply supported_unsupported.
      * intros w Hw. apply elem_of_cons in Hw as [->|Hw]; auto.
    + assert (unsupported D y ix iy x) as Hx by (by exists dy).
      split; [|split].
      * intros w. rewrite Htmp, elem_of_cons. split; [naive_solver|].
        intros [?|[[->|?] Hs]]; auto.
        exfalso. by eapply supported_unsupported.
      * rewrite Hres. split; [|auto]. intros _. right. exists x.
        split; [by left | done].
      * intros w Hw. apply elem_of_cons in Hw as [->|Hw]; auto.
Qed.

Section Revise.

Context (c : Crossword).

(** The result and effect of a call of [revise] that returns. *)
Lemma revise_Ok x y D res D' :
  revise c x y D = (Ok res, D') →
  (overlaps c x y = None ∧ res = false ∧ D' = D) ∨
  (∃ ix iy dx tmp,
     overlaps c x y = Some (ix, iy) ∧ D !! x = Some dx ∧ D' = <[x := tmp]> D ∧
     (∀ w, w ∈ tmp ↔ w ∈ dx ∧ supported D y ix iy w) ∧
     (res = true ↔ ∃ w, w ∈ dx ∧ unsupported D y ix iy w) ∧
     (∀ w, w ∈ dx → supported D y ix iy w ∨ unsupported D y ix iy w)).
Proof.
  unfold revise. destruct (overlaps c x y) as [[ix iy]|]; [|intros [= <- <-]; auto].
  destruct (dom_get D x) as [dx|] eqn:Hdx; [|by intros [=]].
  apply dom_get_Ok in Hdx.
  destruct (revise_loop _ _ _ _ _ _) as [[r tmp]|] eqn:Hloop; [|by intros [=]].
  intros [= <- <-]. apply revise_loop_spec in Hloop as (Htmp & Hres & Hall).
  right. exists ix, iy, dx, tmp. split; [done|]. split; [done|]. split; [done|].
  split; [|split].
  - intros w. rewrite Htmp, elem_of_elements. set_solver.
  - rewrite Hres. setoid_rewrite elem_of_elements. naive_solver.
  - intros w Hw. by apply Hall, elem_of_elements.
Qed.

(** A call of [revise] that raises leaves [self.domains] as it was. *)
Lemma revise_not_Ok x y D r D' :
  revise c x y D = (r, D') → (∀ b, r ≠ Ok b) → D' = D.
Proof.
  unfold revise. destruct (overlaps c x y) as [[ix iy]|]; [|intros [= <- <-]; naive_solver].
  destruct (dom_get D x) as [dx|]; [|by intros [= <- <-]].
  destruct (revise_loop _ _ _ _ _ _) as [[res tmp]|]; intros [= <- <-]; naive_solver.
Qed.

Lemma revise_shrinks x y D : shrinks (revise c x y D).2 D.
Proof.
  destruct (revise c x y D) as [r D'] eqn:Hrev. simpl.
  destruct r as [res|].
  - apply revise_Ok in Hrev as [(_ & _ & ->)|(ix & iy & dx & tmp & _ & Hx & -> & Htmp & _ & _)].
    + apply shrinks_refl.
    + eapply shrinks_insert; [done|]. intros w Hw. by apply Htmp in Hw as [? _].
  - apply revise_not_Ok in Hrev as ->; [apply shrinks_refl | done].
Qed.

Lemma enforce_node_consistency_loop_shrinks vars D :
  shrinks (enforce_node_consistency_loop vars D).2 D.
Proof.
  revert D. induction vars as [|var vars IH]; intros D; simpl; [apply shrinks_refl|].
  destruct (D !! var) as [s|] eqn:Hvar; [|apply shrinks_refl].
  eapply shrinks_trans; [apply IH|].
  eapply shrinks_insert; [done|]. intros w Hw. by apply elem_of_filter in Hw as [_ ?].
Qed.

(** Node consistency: what is left to a variable that was filtered has its
    length. *)
Lemma enforce_node_consistency_loop_length vars D D1 x s1 w :
  enforce_node_consistency_loop vars D = (Ok (), D1) →
  x ∈ vars → D1 !! x = Some s1 → w ∈ s1 → length x = String.length w.
Proof.
  revert D. induction vars as [|var vars IH]; intros D Hloop Hx Hs1 Hw; simpl in Hloop.
  { by apply elem_of_nil in Hx. }
  destruct (D !! var) as [s|] eqn:Hvar; [|done].
  destruct (decide (x ∈ vars)) as [Hin|Hin]; [by eapply IH|].
  apply elem_of_cons in Hx as [->|Hx]; [|done].
  pose proof (enforce_node_consistency_loop_shrinks vars
                (<[var := filter (λ value, length var = String.length value) s]> D)) as Hsh.
  rewrite Hloop in Hsh. simpl in Hsh.
  destruct (Hsh _ _ Hs1) as (s' & Hs' & Hsub). rewrite lookup_insert_eq in Hs'.
  injection Hs' as <-. apply Hsub in Hw. by apply elem_of_filter in Hw as [? _].
Qed.

Lemma ac3_loop_shrinks fuel arcs D r D' :
  ac3_loop c fuel arcs D = Some (r, D') → shrinks D' D.
Proof.
  revert arcs D. induction fuel as [|fuel IH]; intros arcs D; simpl; [done|].
  destruct arcs as [|[x y] arcs]; [intros [= <- <-]; apply shrinks_refl|].
  pose proof (revise_shrinks x y D) as Hrev.
  destruct (revise c x y D) as [[[]|] D1]; simpl in *.
  - destruct (dom_get D1 x) as [dx|]; [|by intros [= <- <-]].
    case_decide; [by intros [= <- <-]|].
    intros Hloop. eapply shrinks_trans; [by eapply IH | done].
  - intros Hloop. eapply shrinks_trans; [by eapply IH | done].
  - by intros [= <- <-].
Qed.

End Revise.

(* ===================================================================== *)
(** ** Heuristics: what the two choices return *)
(* ===================================================================== *)

Section Heuristics.

Context (c : Crossword).

Lemma order_domain_values_Permutation var A D values :
  order_domain_values c var A D = Ok values →
  ∃ dv, D !! var = Some dv ∧ values ≡ₚ elements dv.
Proof.
  unfold order_domain_values. intros H.
  apply bind_Ok in H as (dv & Hdv & H). apply dom_get_Ok in Hdv.
  apply bind_Ok in H as (counters & Hcounters & H).
  injection H as <-. exists dv. split; [done|].
  unfold sorted_reverse. rewrite merge_sort_Permutation.
  apply result_map_length in Hcounters.
  rewrite snd_zip; [done | lia].
Qed.

Lemma order_domain_values_elem_of var A D values dv w :
  order_domain_values c var A D = Ok values → D !! var = Some dv →
  w ∈ values ↔ w ∈ dv.
Proof.
  intros H Hdv. apply order_domain_values_Permutation in H as (dv' & Hdv' & ->).
  rewrite elem_of_elements. by simplify_eq.
Qed.

(** Python's order on [(int, str)] tuples is total. *)
Global Instance flip_tuple_le_total : Total (flip tuple_le).
Proof.
  intros [n s] [m t]. unfold flip, tuple_le, str_le. simpl.
  destruct (lt_eq_lt_dec n m) as [[? | ->] | ?]; [right; by left| |left; by left].
  destruct (String.leb_total s t); [right | left]; right; by split.
Qed.

Lemma result_map_Forall2 {A B} (f : A → result B) l ys :
  result_map f l = Ok ys → Forall2 (λ x y, f x = Ok y) l ys.
Proof.
  revert ys. induction l as [|x l IH]; intros ys H; simpl in H.
  - injection H as <-. constructor.
  - apply bind_Ok in H as (y & Hy & H). apply bind_Ok in H as (ys' & Hys & H).
    injection H as <-. constructor; [done | by apply IH].
Qed.

Lemma result_map_zipped {A B} (f : A → result B) (l : list (B * A)) :
  Forall (λ p, f p.2 = Ok p.1) l → result_map f l.*2 = Ok l.*1.
Proof.
  induction 1 as [|[y x] l Hx _ IH]; csimpl; [done|].
  simpl in Hx. rewrite Hx. simpl. by rewrite IH.
Qed.

(** What the code does in general: the list comes out in descending order
    of the counters (largest number of ruled-out values first). *)
Lemma order_domain_values_descending var A D values :
  order_domain_values c var A D = Ok values →
  ∃ counters,
    result_map (ruled_out c var A D) values = Ok counters ∧
    Sorted (λ n m, m ≤ n) counters.
Proof.
  unfold order_domain_values. intros H.
  apply bind_Ok in H as (dv & _ & H). apply bind_Ok in H as (counters & Hcounters & H).
  injection H as <-. apply result_map_Forall2 in Hcounters.
  set (l := sorted_reverse (zip counters (elements dv))).
  exists l.*1. split.
  - apply result_map_zipped, Forall_forall. intros [n w] Hin. simpl.
    unfold l, sorted_reverse in Hin. rewrite merge_sort_Permutation in Hin.
    clear l. induction Hcounters as [|w' n' ws ns Hw _ IH]; simpl in Hin.
    + by apply elem_of_nil in Hin.
    + apply elem_of_cons in Hin as [[= -> ->]|Hin]; [done | by apply IH].
  - apply (Sorted_fmap _ (flip tuple_le)); [|apply Sorted_merge_sort, _].
    intros [n s] [m t] [?|[? _]]; simpl in *; lia.
Qed.

(** The variable selected is one of the crossword's, and is not bound. *)
Lemma select_unassigned_variable_unassigned A D var :
  select_unassigned_variable c A D = Ok var →
  var ∈ variables c ∧ var ∉ keys A.
Proof.
  unfold select_unassigned_variable. intros H.
  apply bind_Ok in H as (sizes & _ & H). apply bind_Ok in H as (min_values & _ & H).
  apply bind_Ok in H as (sel & Hsel & H). apply bind_Ok in H as (sel' & Hsel' & H).
  assert (var ∈ sel') as Hvar.
  { destruct sel' as [|v ?]; [done|]. injection H as ->. left. }
  assert (var ∈ sel) as Hvar'.
  { case_decide.
    - apply bind_Ok in Hsel' as (m & _ & [= <-]).
      by apply list_elem_of_filter in Hvar as [_ ?].
    - by injection Hsel' as <-. }
  eapply result_filter_elem_of in Hsel. apply Hsel in Hvar' as [Hin _].
  apply elem_of_elements in Hin. set_solver.
Qed.

Lemma foldl_min_le_init l a : foldl Nat.min a l ≤ a.
Proof.
  revert a. induction l as [|b l IH]; intros a; simpl; [done|].
  etransitivity; [apply IH | lia].
Qed.

Lemma foldl_min_le l a n : n ∈ l → foldl Nat.min a l ≤ n.
Proof.
  revert a. induction l as [|b l IH]; intros a Hn; simpl.
  - by apply elem_of_nil in Hn.
  - apply elem_of_cons in Hn as [->|Hn]; [|by apply IH].
    etransitivity; [apply foldl_min_le_init | lia].
Qed.

Lemma list_min_le l m n : list_min l = Ok m → n ∈ l → m ≤ n.
Proof.
  destruct l as [|a l]; [done|]. simpl. intros [= <-] Hn.
  apply elem_of_cons in Hn as [->|Hn];
    [apply foldl_min_le_init | by apply foldl_min_le].
Qed.

(** Minimum remaining values: the variable selected has a domain, and no
    unbound variable has a smaller one. *)
Lemma select_unassigned_variable_minimal A D var :
  select_unassigned_variable c A D = Ok var →
  ∃ dv, D !! var = Some dv ∧
    ∀ u, u ∈ variables c → u ∉ keys A → ∃ du, D !! u = Some du ∧ size dv ≤ size du.
Proof.
  unfold select_unassigned_variable. intros H.
  apply bind_Ok in H as (sizes & Hsizes & H). apply bind_Ok in H as (min_values & Hmin & H).
  apply bind_Ok in H as (sel & Hsel & H). apply bind_Ok in H as (sel' & Hsel' & H).
  assert (var ∈ sel') as Hvar.
  { destruct sel' as [|v ?]; [done|]. injection H as ->. left. }
  assert (var ∈ sel) as Hvar'.
  { case_decide.
    - apply bind_Ok in Hsel' as (m & _ & [= <-]).
      by apply list_elem_of_filter in Hvar as [_ ?].
    - by injection Hsel' as <-. }
  eapply result_filter_elem_of in Hsel. apply Hsel in Hvar' as [_ Hdv].
  apply bind_Ok in Hdv as (dv & Hdv & [= Hsize]). apply dom_get_Ok in Hdv.
  apply bool_decide_eq_true in Hsize. exists dv. split; [done|].
  intros u Hu Hfresh. apply result_map_Forall2 in Hsizes.
  assert (u ∈ elements (variables c ∖ keys A)) as Hin
    by (apply elem_of_elements; set_solver).
  apply list_elem_of_lookup_1 in Hin as [i Hi].
  destruct (Forall2_lookup_l _ _ _ _ _ Hsizes Hi) as (n & Hn & Hun).
  apply bind_Ok in Hun as (du & Hdu & [= <-]). apply dom_get_Ok in Hdu.
  exists du. split; [done|]. rewrite Hsize.
  eapply list_min_le; [done|]. by eapply list_elem_of_lookup_2.
Qed.

End Heuristics.

(* ===================================================================== *)
(** ** Assignments accepted by [consistent] *)
(* ===================================================================== *)

Lemma size_list_to_set_le (k : list string) :
  size (list_to_set k : gset string) ≤ List.length k.
Proof.
  induction k as [|x k IH].
  - by rewrite list_to_set_nil, size_empty.
  - rewrite list_to_set_cons, size_union_alt, size_singleton. simpl.
    assert (size (list_to_set k ∖ {[x]} : gset string) ≤ size (list_to_set k : gset string))
      by (apply subseteq_size; set_solver).
    lia.
Qed.

Lemma NoDup_of_size_list_to_set (l : list string) :
  List.length l = size (list_to_set l : gset string) → NoDup l.
Proof.
  induction l as [|x l IH]; [intros _; apply NoDup_nil_2|].
  rewrite list_to_set_cons. simpl. intros Hlen.
  destruct (decide (x ∈ l)) as [Hin|Hin].
  - exfalso. pose proof (size_list_to_set_le l) as Hle.
    assert (({[x]} ∪ list_to_set l : gset string) = list_to_set l) as Heq by set_solver.
    rewrite Heq in Hlen. lia.
  - apply NoDup_cons. split; [done|]. apply IH.
    rewrite size_union, size_singleton in Hlen; [lia | set_solver].
Qed.

Section Consistent.

Context (c : Crossword).

Lemma assignment_complete_spec A : assignment_complete c A = true ↔ complete c A.
Proof.
  unfold assignment_complete, complete. rewrite forallb_forall.
  setoid_rewrite <- list_elem_of_In. setoid_rewrite elem_of_elements.
  setoid_rewrite bool_decide_eq_true. done.
Qed.

Lemma consistent_inner_spec x wx ys :
  consistent_inner c x wx ys = Ok true →
  ∀ y wy i j, (y, wy) ∈ ys → x ≠ y → overlaps c x y = Some (i, j) → agree wx wy i j.
Proof.
  induction ys as [|[y' wy'] ys IH]; simpl; intros H y wy i j Hin Hne Hov.
  { by apply elem_of_nil in Hin. }
  apply elem_of_cons in Hin as [[= <- <-]|Hin].
  - case_decide; [done|]. rewrite Hov in H.
    apply bind_Ok in H as (a & Ha & H). apply bind_Ok in H as (b & Hb & H).
    apply str_index_Ok in Ha, Hb. case_decide; [subst|done]. by exists b.
  - case_decide; [by eapply IH|].
    destruct (overlaps c x y') as [[i' j']|]; [|by eapply IH].
    apply bind_Ok in H as (a & Ha & H). apply bind_Ok in H as (b & Hb & H).
    case_decide; [by eapply IH | done].
Qed.

Lemma consistent_outer_spec xs A :
  consistent_outer c xs A = Ok true →
  ∀ x wx, (x, wx) ∈ xs →
    length x = String.length wx ∧ consistent_inner c x wx A = Ok true.
Proof.
  induction xs as [|[x' wx'] xs IH]; simpl; intros H x wx Hin.
  { by apply elem_of_nil in Hin. }
  case_decide as Hlen; [|done].
  apply bind_Ok in H as (b & Hb & H). destruct b; [|done].
  apply elem_of_cons in Hin as [[= -> ->]|Hin]; [done | by apply IH].
Qed.

Lemma consistent_valid A : consistent c A = Ok true → valid_assignment c A.
Proof.
  unfold consistent. case_decide as Hlen; [|done]. intros H.
  pose proof (consistent_outer_spec _ _ H) as Hout. split.
  - apply NoDup_of_size_list_to_set. by rewrite length_fmap.
  - intros x wx Hin. by apply Hout.
  - intros x wx y wy i j Hx Hy Hne Hov.
    destruct (Hout _ _ Hx) as [_ Hinner]. by eapply consistent_inner_spec.
Qed.

Lemma consistent_nil : consistent c [] = Ok true.
Proof. reflexivity. Qed.

End Consistent.

(* ===================================================================== *)
(** ** Search driver *)
(* ===================================================================== *)

Section Search.

Context (c : Crossword).

Implicit Types rec : Assignment → Domains → Outcome.

(** How an iteration that tries a consistent binding ends: whatever [ac3]
    reported, the outcome is that of the recursive call on the narrowed and
    propagated domains, except that a failure restores the snapshot. *)
Lemma try_value_consistent rec var value A D b D2 :
  consistent c (dict_set var value A) = Ok true →
  ac3 c (Some (assigned_arcs c (dict_set var value A))) (<[var := {[value]}]> D) = Some (Ok b, D2) →
  try_value c rec var value A D =
    match rec (dict_set var value A) D2 with
    | Some (Ok None, (A2, _)) => Some (Ok None, (A2, D))
    | r => r
    end.
Proof. unfold try_value. by intros -> ->. Qed.

Lemma try_value_inconsistent rec var value A D :
  consistent c (dict_set var value A) = Ok false →
  try_value c rec var value A D = Some (Ok None, (dict_set var value A, D)).
Proof. unfold try_value. by intros ->. Qed.

(** An iteration that falls through leaves the domains it started from. *)
Lemma try_value_None_domains rec var value A D A' D' :
  try_value c rec var value A D = Some (Ok None, (A', D')) → D' = D.
Proof.
  unfold try_value.
  destruct (consistent c (dict_set var value A)) as [[]|]; try (by intros [=]).
  - destruct (ac3 c _ _) as [[[b|] D2]|]; try (by intros [=]).
    destruct (rec _ _) as [[[[res|]|] [A2 D3]]|]; by intros [=].
Qed.

Lemma try_value_None_assignment rec var value A D A' D' :
  restoring rec →
  try_value c rec var value A D = Some (Ok None, (A', D')) → A' = dict_set var value A.
Proof.
  intros Hrec. unfold try_value.
  destruct (consistent c (dict_set var value A)) as [[]|]; try (by intros [=]).
  - destruct (ac3 c _ _) as [[[b|] D2]|]; try (by intros [=]).
    destruct (rec _ _) as [[[[res|]|] [A2 D3]]|] eqn:Hr; try (by intros [=]).
    apply Hrec in Hr as [-> _]. by intros [=].
Qed.

Lemma try_value_Some rec var value A D res st :
  sound c rec →
  try_value c rec var value A D = Some (Ok (Some res), st) →
  complete c res ∧ consistent c res = Ok true.
Proof.
  intros Hrec. unfold try_value.
  destruct (consistent c (dict_set var value A)) as [[]|] eqn:Hcons; try (by intros [=]).
  destruct (ac3 c _ _) as [[[b|] D2]|]; try (by intros [=]).
  destruct (rec _ _) as [[[[res'|]|] [A2 D3]]|] eqn:Hr; try (by intros [=]).
  intros [= <- <-]. by eapply Hrec.
Qed.

Lemma try_values_None rec var values A D A' D' :
  restoring rec →
  try_values c rec var values A D = Some (Ok None, (A', D')) →
  A' = rebound var values A ∧ D' = D.
Proof.
  intros Hrec. revert A. induction values as [|value values IH]; intros A; simpl.
  { by intros [= <- <-]. }
  destruct (try_value c rec var value A D) as [[[[res|]|] [A1 D1]]|] eqn:Hv;
    try (by intros [=]).
  pose proof (try_value_None_domains _ _ _ _ _ _ _ Hv) as ->.
  apply try_value_None_assignment in Hv as ->; [|done].
  intros H. apply IH in H as [-> ->]. split; [|done].
  unfold rebound. destruct values as [|v values]; [done|].
  change (last (value :: v :: values)) with (last (v :: values)).
  destruct (last (v :: values)) eqn:Hl; [apply dict_set_set|].
  by apply last_None in Hl.
Qed.

Lemma try_values_Some rec var values A D res st :
  sound c rec →
  try_values c rec var values A D = Some (Ok (Some res), st) →
  complete c res ∧ consistent c res = Ok true.
Proof.
  intros Hrec. revert A D. induction values as [|value values IH]; intros A D; simpl.
  { by intros [=]. }
  destruct (try_value c rec var value A D) as [[[[res'|]|] [A1 D1]]|] eqn:Hv;
    try (by intros [=]).
  - intros [= <- <-]. by eapply try_value_Some.
  - by apply IH.
Qed.

Lemma backtrack_body_restoring rec : restoring rec → restoring (backtrack_body c rec).
Proof.
  intros Hrec A D A' D'. unfold backtrack_body.
  destruct (assignment_complete c A); [by intros [=]|].
  destruct (select_unassigned_variable c A D) as [var|] eqn:Hsel; try (by intros [=]).
  apply select_unassigned_variable_unassigned in Hsel as [_ Hvar].
  destruct (order_domain_values c var A D) as [values|]; try (by intros [=]).
  destruct (try_values c rec var values A D) as [[[[res|]|] [A1 D1]]|] eqn:Hloop;
    try (by intros [=]).
  apply try_values_None in Hloop as [-> ->]; [|done].
  unfold rebound. destruct (last values) as [value|].
  - rewrite dict_set_fresh, dict_del_fresh_app by done. by intros [= <- <-].
  - apply dict_del_None in Hvar. by rewrite Hvar.
Qed.

Lemma backtrack_body_sound rec : sound c rec → sound c (backtrack_body c rec).
Proof.
  intros Hrec A D res st. unfold backtrack_body.
  destruct (assignment_complete c A) eqn:Hc.
  { intros [= <- <-] ?. split; [by apply assignment_complete_spec | done]. }
  destruct (select_unassigned_variable c A D) as [var|]; try (by intros [=]).
  destruct (order_domain_values c var A D) as [values|]; try (by intros [=]).
  destruct (try_values c rec var values A D) as [[[[res'|]|] [A1 D1]]|] eqn:Hloop;
    try (by intros [=]).
  - intros [= <- <-] _. by eapply try_values_Some.
  - by destruct (dict_del var A1).
Qed.

Lemma backtrack_restoring fuel : restoring (backtrack c fuel).
Proof.
  induction fuel as [|fuel IH]; [by intros A D A' D' [=]|].
  by apply backtrack_body_restoring.
Qed.

Lemma backtrack_sound fuel : sound c (backtrack c fuel).
Proof.
  induction fuel as [|fuel IH]; [by intros A D res st [=]|].
  by apply backtrack_body_sound.
Qed.

End Search.

(* ===================================================================== *)
(** ** Termination: the fuel handed to the loops is enough *)
(* ===================================================================== *)

Section Termination.

Context (c : Crossword).

Lemma total_size_insert_fresh (D : Domains) x s :
  D !! x = None → total_size (<[x := s]> D) = size s + total_size D.
Proof.
  intros Hx. unfold total_size. by rewrite map_to_list_insert.
Qed.

Lemma total_size_insert (D : Domains) x s t :
  D !! x = Some s → total_size (<[x := t]> D) + size s = total_size D + size t.
Proof.
  intros Hx. rewrite <- (insert_delete_id D x s) at 2 by done.
  rewrite <- (insert_delete_eq D x t).
  rewrite !total_size_insert_fresh by apply lookup_delete_eq. lia.
Qed.

Lemma max_degree_insert (D : Domains) x t :
  is_Some (D !! x) → max_degree c (<[x := t]> D) = max_degree c D.
Proof. intros Hx. unfold max_degree. by rewrite dom_insert_lookup_L. Qed.

Lemma max_degree_le (D : Domains) x :
  is_Some (D !! x) → size (neighbors c x) ≤ max_degree c D.
Proof.
  intros Hx. unfold max_degree. apply max_list_elem_of_le.
  apply list_elem_of_fmap. exists x. split; [done|].
  by apply elem_of_elements, elem_of_dom.
Qed.

Lemma enqueue_length x y ns arcs :
  List.length (enqueue x y ns arcs) ≤ List.length arcs + List.length ns.
Proof.
  revert arcs. induction ns as [|n ns IH]; intros arcs; simpl; [lia|].
  case_decide.
  - specialize (IH (arcs ++ [(n, x)])). rewrite length_app in IH. simpl in IH. lia.
  - specialize (IH arcs). lia.
Qed.

(** What a revision does to the measure of the loop. *)
Lemma revise_measure x y D res D' :
  revise c x y D = (Ok res, D') →
  max_degree c D' = max_degree c D ∧ total_size D' ≤ total_size D ∧
  (res = true → is_Some (D' !! x) ∧ is_Some (D !! x) ∧ total_size D' < total_size D).
Proof.
  intros Hrev.
  apply revise_Ok in Hrev as [(_ & -> & ->)|(ix & iy & dx & tmp & _ & Hx & -> & Htmp & Hres & _)].
  { split; [done|]. split; [lia | done]. }
  pose proof (total_size_insert D x dx tmp Hx) as Hsize.
  assert (tmp ⊆ dx) as Hsub by (intros w Hw; by apply Htmp in Hw as [? _]).
  apply subseteq_size in Hsub as Hle.
  split; [by apply max_degree_insert|]. split; [lia|].
  intros ->. rewrite lookup_insert_eq. split; [done|]. split; [done|].
  destruct Hres as [Hres _]. destruct (Hres eq_refl) as (w & Hw & Hun).
  assert (tmp ⊂ dx) as Hstrict.
  { split; [done|]. intros Hdx. apply Hdx, Htmp in Hw as [_ Hs].
    by eapply supported_unsupported. }
  apply subset_size in Hstrict. lia.
Qed.

Lemma ac3_loop_terminates fuel arcs D :
  total_size D * S (max_degree c D) + List.length arcs < fuel →
  is_Some (ac3_loop c fuel arcs D).
Proof.
  revert arcs D. induction fuel as [|fuel IH]; intros arcs D Hfuel; [lia|]. simpl.
  destruct arcs as [|[x y] arcs]; [done|]. simpl in Hfuel.
  destruct (revise c x y D) as [[[]|] D1] eqn:Hrev; [| |done].
  - apply revise_measure in Hrev as (Hdeg & _ & Hlt).
    destruct (Hlt eq_refl) as ([dx Hx1] & Hx & Hsize).
    unfold dom_get. rewrite Hx1. case_decide; [done|].
    apply IH. rewrite Hdeg.
    pose proof (enqueue_length x y (elements (neighbors c x)) arcs) as Hlen.
    pose proof (max_degree_le D x Hx) as Hmax.
    change (List.length (elements (neighbors c x))) with (size (neighbors c x)) in Hlen.
    nia.
  - apply revise_measure in Hrev as (Hdeg & Hle & _).
    apply IH. rewrite Hdeg. nia.
Qed.

(** [ac3] always comes back: with a verdict or with an exception. *)
Lemma ac3_terminates arcs D : is_Some (ac3 c arcs D).
Proof. unfold ac3. apply ac3_loop_terminates. unfold ac3_fuel. lia. Qed.

Implicit Types rec : Assignment → Domains → Outcome.

Lemma try_value_terminates rec var value A D :
  (∀ D', is_Some (rec (dict_set var value A) D')) →
  is_Some (try_value c rec var value A D).
Proof.
  intros Hrec. unfold try_value.
  destruct (consistent c (dict_set var value A)) as [[]|]; [|done..].
  destruct (ac3_terminates (Some (assigned_arcs c (dict_set var value A)))
              (<[var := {[value]}]> D)) as [[[b|e] D2] ->]; [|done].
  destruct (Hrec D2) as [[[[res|]|e] [A2 D3]] ->]; done.
Qed.

Lemma try_values_terminates rec var values A A0 D :
  restoring rec →
  (∀ v D', is_Some (rec (dict_set var v A) D')) →
  (∀ v, dict_set var v A0 = dict_set var v A) →
  is_Some (try_values c rec var values A0 D).
Proof.
  intros Hres Hrec. revert A0 D.
  induction values as [|value values IH]; intros A0 D HA0; simpl; [done|].
  destruct (try_value_terminates rec var value A0 D) as [[[[res|]|e] [A1 D1]] Hv].
  { intros D'. rewrite HA0. apply Hrec. }
  - by rewrite Hv.
  - rewrite Hv. apply IH. intros v.
    apply try_value_None_assignment in Hv as ->; [|done].
    by rewrite dict_set_set.
  - by rewrite Hv.
Qed.

Lemma backtrack_terminates fuel A D :
  size (variables c ∖ keys A) < fuel → is_Some (backtrack c fuel A D).
Proof.
  revert A D. induction fuel as [|fuel IH]; intros A D Hfuel; [lia|].
  simpl. unfold backtrack_body.
  destruct (assignment_complete c A); [done|].
  destruct (select_unassigned_variable c A D) as [var|] eqn:Hsel; [|done].
  apply select_unassigned_variable_unassigned in Hsel as [Hvar Hfresh].
  destruct (order_domain_values c var A D) as [values|]; [|done].
  destruct (try_values_terminates (backtrack c fuel) var values A A D)
    as [[[[res|]|e] [A1 D1]] ->]; try done.
  - apply backtrack_restoring.
  - intros v D'. apply IH. rewrite keys_dict_set.
    assert (variables c ∖ ({[var]} ∪ keys A) ⊂ variables c ∖ keys A) as Hsub by set_solver.
    apply subset_size in Hsub. lia.
  - by destruct (dict_del var A1).
Qed.

(** [solve] always comes back: with an assignment, with [None] or with an
    exception. *)
Lemma solve_terminates : is_Some (solve c).
Proof.
  unfold solve. destruct (enforce_node_consistency c (init_domains c)) as [[[]|e] D1]; [|done].
  destruct (ac3_terminates None D1) as [[[b|e] D2] ->]; [|done].
  apply backtrack_terminates. unfold backtrack_fuel. lia.
Qed.

End Termination.

(* ===================================================================== *)
(** ** AC-3 establishes arc consistency *)
(* ===================================================================== *)

Section ArcConsistency.

Context (c : Crossword).

Lemma agree_sym wx wy ix iy : agree wx wy ix iy → agree wy wx iy ix.
Proof. intros (ch & ? & ?). by exists ch. Qed.

Lemma supported_agree D y ix iy w :
  supported D y ix iy w → ∃ dy wy, D !! y = Some dy ∧ wy ∈ dy ∧ agree w wy ix iy.
Proof.
  intros (dy & Hy & Hm). apply any_match_true in Hm as (wy & Hwy & Hag).
  exists dy, wy. split; [done|]. split; [by apply elem_of_elements | done].
Qed.

Lemma unsupported_agree D y ix iy w dy wy :
  unsupported D y ix iy w → D !! y = Some dy → wy ∈ dy → ¬ agree w wy ix iy.
Proof.
  intros (dy' & Hy' & Hm) Hy Hwy. simplify_eq.
  eapply any_match_false; [done|]. by apply elem_of_elements.
Qed.

Lemma enqueue_old x y ns arcs a : a ∈ arcs → a ∈ enqueue x y ns arcs.
Proof.
  revert arcs. induction ns as [|n ns IH]; intros arcs Ha; simpl; [done|].
  case_decide; apply IH; [|done]. apply elem_of_app. by left.
Qed.

Lemma enqueue_new x y ns arcs n :
  n ∈ ns → n ≠ y → (n, x) ∈ enqueue x y ns arcs.
Proof.
  revert arcs. induction ns as [|n' ns IH]; intros arcs Hn Hny; simpl.
  { by apply elem_of_nil in Hn. }
  apply elem_of_cons in Hn as [<-|Hn].
  - case_decide as Hd.
    + apply enqueue_old, elem_of_app. right. left.
    + apply enqueue_old. destruct (decide ((n, x) ∈ arcs)); [done|]. naive_solver.
  - case_decide; by apply IH.
Qed.

(** A revision that removes nothing leaves the store as it is. *)
Lemma revise_false x y D D' : revise c x y D = (Ok false, D') → D' = D.
Proof.
  intros Hrev.
  apply revise_Ok in Hrev
    as [(_ & _ & ->)|(ix & iy & dx & tmp & _ & Hx & -> & Htmp & Hres & Hall)]; [done|].
  assert (tmp = dx) as ->; [|by apply insert_id].
  apply set_eq. intros w. rewrite Htmp. split; [by intros [? _]|].
  intros Hw. split; [done|]. destruct (Hall w Hw) as [?|Hun]; [done|].
  assert (false = true) by (apply Hres; eauto). done.
Qed.

Lemma revise_false_consistent x y D D' :
  revise c x y D = (Ok false, D') → arc_consistent c D x y.
Proof.
  intros Hrev.
  apply revise_Ok in Hrev
    as [(Hnone & _ & _)|(ix & iy & dx & tmp & Hov & Hx & _ & _ & Hres & Hall)].
  { intros ix iy dx wx Hov. congruence. }
  intros ix' iy' dx' wx Hov' Hx' Hwx. simplify_eq.
  destruct (Hall wx Hwx) as [Hs|Hun]; [by apply supported_agree|].
  assert (false = true) by (apply Hres; eauto). done.
Qed.

Lemma revise_true_invariant x y arcs D D' :
  structure_ok c →
  pending_or_consistent c ((x, y) :: arcs) D →
  revise c x y D = (Ok true, D') →
  pending_or_consistent c (enqueue x y (elements (neighbors c x)) arcs) D'.
Proof.
  intros Hok Hinv Hrev u v Hu Hv Huv.
  apply revise_Ok in Hrev
    as [(_ & [=] & _)|(ix & iy & dx & tmp & Hov & Hx & -> & Htmp & _ & Hall)].
  destruct (Hinv u v Hu Hv Huv) as [Hin|Hc].
  - apply elem_of_cons in Hin as [[= -> ->]|Hin]; [|left; by apply enqueue_old].
    right. intros ix' iy' dx' wx Hov' Hx' Hwx.
    rewrite lookup_insert_eq in Hx'. simplify_eq.
    apply Htmp in Hwx as [_ Hs]. rewrite lookup_insert_ne by done.
    by apply supported_agree.
  - destruct (decide (v = x)) as [->|Hvx].
    + destruct (overlaps c u x) as [[iu ixu]|] eqn:Hou;
        [|right; intros ? ? ? ? Hov'; congruence].
      destruct (decide (u = y)) as [->|Huy].
      * right. intros iy' ix' dy wy Hov' Hy Hwy.
        rewrite lookup_insert_ne in Hy by done.
        destruct (Hc iy' ix' dy wy Hov' Hy Hwy) as (dx' & wx & Hx' & Hwx & Hag).
        pose proof (overlaps_sym c Hok _ _ _ _ Hov') as Hsym. simplify_eq.
        exists tmp, wx. rewrite lookup_insert_eq. split; [done|]. split; [|done].
        apply Htmp. split; [done|].
        destruct (Hall wx Hwx) as [?|Hun]; [done|].
        exfalso. eapply unsupported_agree; [done..|]. by apply agree_sym.
      * left. apply enqueue_new; [|done].
        apply elem_of_elements, (neighbors_spec c Hok). by rewrite Hou.
    + right. intros ix' iy' du wu Hov' Hdu Hwu.
      rewrite (lookup_insert_ne _ x v) by done.
      destruct (decide (u = x)) as [->|Hux].
      * rewrite lookup_insert_eq in Hdu. simplify_eq.
        apply Htmp in Hwu as [Hwu _]. by eapply Hc.
      * rewrite lookup_insert_ne in Hdu by done. by eapply Hc.
Qed.

Lemma revise_false_invariant x y arcs D D' :
  pending_or_consistent c ((x, y) :: arcs) D →
  revise c x y D = (Ok false, D') →
  pending_or_consistent c arcs D'.
Proof.
  intros Hinv Hrev u v Hu Hv Huv.
  pose proof (revise_false_consistent _ _ _ _ Hrev) as Hxy.
  apply revise_false in Hrev as ->.
  destruct (Hinv u v Hu Hv Huv) as [Hin|Hc]; [|by right].
  apply elem_of_cons in Hin as [[= -> ->]|Hin]; [by right | by left].
Qed.

Lemma ac3_loop_arc_consistent fuel arcs D D' :
  structure_ok c →
  pending_or_consistent c arcs D →
  ac3_loop c fuel arcs D = Some (Ok true, D') →
  pending_or_consistent c [] D'.
Proof.
  intros Hok. revert arcs D. induction fuel as [|fuel IH]; intros arcs D Hinv; simpl; [done|].
  destruct arcs as [|[x y] arcs]; [by intros [= <-]|].
  destruct (revise c x y D) as [[[]|] D1] eqn:Hrev; [| |done].
  - destruct (dom_get D1 x) as [dx|]; [|done]. case_decide; [done|].
    apply IH. by eapply revise_true_invariant.
  - apply IH. by eapply revise_false_invariant.
Qed.

Lemma ac3_loop_nonempty fuel arcs D D' :
  nonempty_domains D →
  ac3_loop c fuel arcs D = Some (Ok true, D') →
  nonempty_domains D'.
Proof.
  revert arcs D. induction fuel as [|fuel IH]; intros arcs D Hne; simpl; [done|].
  destruct arcs as [|[x y] arcs]; [by intros [= <-]|].
  destruct (revise c x y D) as [[[]|] D1] eqn:Hrev; [| |done].
  - destruct (dom_get D1 x) as [dx|] eqn:Hdx; [|done]. case_decide as Hsize; [done|].
    apply IH. apply dom_get_Ok in Hdx.
    apply revise_Ok in Hrev
      as [(_ & [=] & _)|(ix & iy & dx' & tmp & _ & _ & -> & _)].
    intros v dv. rewrite lookup_insert. case_decide; [|by apply Hne].
    rewrite lookup_insert_eq in Hdx. simplify_eq. intros [= <-] ->.
    by rewrite size_empty in Hsize.
  - apply IH. by apply revise_false in Hrev as ->.
Qed.

(** The loop stops with [False] as soon as a revision empties a domain. *)
Lemma ac3_loop_wipeout fuel x y arcs D D' :
  revise c x y D = (Ok true, D') → D' !! x = Some ∅ →
  ac3_loop c (S fuel) ((x, y) :: arcs) D = Some (Ok false, D').
Proof.
  intros Hrev Hx. simpl. rewrite Hrev. unfold dom_get. rewrite Hx.
  by rewrite decide_True by apply size_empty.
Qed.

Lemma all_arcs_elem_of x y :
  (x, y) ∈ all_arcs c ↔ x ∈ variables c ∧ y ∈ variables c ∧ x ≠ y.
Proof.
  unfold all_arcs. rewrite list_elem_of_bind. split.
  - intros (x' & Hin & Hx'). apply list_elem_of_bind in Hin as (y' & Hin & Hy').
    case_decide; [by apply elem_of_nil in Hin|].
    apply list_elem_of_singleton in Hin as [= -> ->].
    by rewrite <- !elem_of_elements.
  - intros (Hx & Hy & Hne). exists x. split; [|by apply elem_of_elements].
    apply list_elem_of_bind. exists y. split; [|by apply elem_of_elements].
    rewrite decide_False by done. left.
Qed.

(** The default invocation: when [ac3] answers [True], every arc between
    two variables of the crossword is consistent. *)
Lemma ac3_arc_consistent D D' x y :
  structure_ok c → ac3 c None D = Some (Ok true, D') →
  x ∈ variables c → y ∈ variables c → x ≠ y → arc_consistent c D' x y.
Proof.
  intros Hok Hac Hx Hy Hne. unfold ac3 in Hac.
  eapply ac3_loop_arc_consistent in Hac; [|done|].
  - destruct (Hac x y Hx Hy Hne) as [Hin|?]; [by apply elem_of_nil in Hin | done].
  - intros u v Hu Hv Huv. left. by apply all_arcs_elem_of.
Qed.

Lemma ac3_nonempty arcs D D' :
  nonempty_domains D → ac3 c arcs D = Some (Ok true, D') → nonempty_domains D'.
Proof. intros Hne Hac. by eapply ac3_loop_nonempty. Qed.

Lemma ac3_shrinks arcs D r D' : ac3 c arcs D = Some (r, D') → shrinks D' D.
Proof. apply ac3_loop_shrinks. Qed.

End ArcConsistency.

(* ===================================================================== *)
(** ** Properties of the specification *)
(* ===================================================================== *)

Section Claims.

Context (c : Crossword).

Implicit Types rec : Assignment → Domains → Outcome.

(** When the variable selected has an empty domain, the loop of
    [backtrack] has nothing to try, the variable is never bound, and the
    closing [del assignment[var]] raises [KeyError]. *)
Lemma backtrack_body_empty_domain rec A D var :
  assignment_complete c A = false →
  select_unassigned_variable c A D = Ok var →
  D !! var = Some ∅ →
  backtrack_body c rec A D = Some (Raise KeyError, (A, D)).
Proof.
  intros Hc Hsel Hvar. unfold backtrack_body. rewrite Hc, Hsel.
  apply select_unassigned_variable_unassigned in Hsel as [_ Hfresh].
  unfold order_domain_values, dom_get. rewrite Hvar. simpl.
  rewrite elements_empty. simpl.
  apply dict_del_None in Hfresh. by rewrite Hfresh.
Qed.

(** When the vocabulary has no word of the length of some variable,
    [solve] never returns: it raises, whatever the rest of the crossword. *)
Lemma solve_missing_length_raises v :
  v ∈ variables c →
  (∀ w, w ∈ words c → String.length w ≠ length v) →
  ∃ e st, solve c = Some (Raise e, st).
Proof.
  intros Hv Hwords. unfold solve.
  destruct (enforce_node_consistency c (init_domains c)) as [[[]|e] D1] eqn:Hnode; [|eauto].
  destruct (ac3_terminates c None D1) as [[[b|e] D2] Hac]; rewrite Hac; [|eauto].
  assert (∀ s2 w, D2 !! v = Some s2 → w ∈ s2 → False) as Hempty.
  { intros s2 w Hs2 Hw.
    destruct (ac3_shrinks c _ _ _ _ Hac _ _ Hs2) as (s1 & Hs1 & Hsub21).
    pose proof (enforce_node_consistency_loop_shrinks
                  (elements (variables c)) (init_domains c)) as Hsh.
    unfold enforce_node_consistency in Hnode. rewrite Hnode in Hsh. simpl in Hsh.
    destruct (Hsh _ _ Hs1) as (s0 & Hs0 & Hsub10).
    apply lookup_gset_to_gmap_Some in Hs0 as [_ <-].
    apply (Hwords w); [set_solver|]. symmetry.
    eapply enforce_node_consistency_loop_length; [done| |done|set_solver].
    by apply elem_of_elements. }
  unfold backtrack_fuel. simpl.
  assert (assignment_complete c [] = false) as Hc.
  { apply not_true_is_false. intros Hc. apply assignment_complete_spec in Hc.
    by destruct (Hc v Hv). }
  destruct (select_unassigned_variable c [] D2) as [var|e] eqn:Hsel;
    [|unfold backtrack_body; rewrite Hc, Hsel; eauto].
  pose proof (select_unassigned_variable_minimal c _ _ _ Hsel) as (dv & Hdv & Hmin).
  destruct (Hmin v Hv) as (s2 & Hs2 & Hle); [set_solver|].
  assert (s2 = ∅) as -> by (apply set_eq; intros w; split; [intros ?; exfalso; eauto | set_solver]).
  rewrite size_empty in Hle.
  assert (dv = ∅) as -> by (apply leibniz_equiv, size_empty_inv; lia).
  erewrite backtrack_body_empty_domain by done. eauto.
Qed.

(** C1. Every assignment returned by [solve] is complete and satisfies the
    constraints: the bound words are pairwise distinct, each word has the
    length of its variable, and two bound variables with a defined overlap
    agree on the letter of the shared cell. *)
Theorem solve_returns_valid_assignment res st :
  solve c = Some (Ok (Some res), st) → complete c res ∧ valid_assignment c res.
Proof.
  unfold solve.
  destruct (enforce_node_consistency c (init_domains c)) as [[[]|e] D1]; [|done].
  destruct (ac3 c None D1) as [[[b|e] D2]|]; [|done..].
  intros H. pose proof (backtrack_sound c _ _ _ _ _ H (consistent_nil c)) as [Hc Hv].
  split; [done | by apply consistent_valid].
Qed.

(** What the loop of [backtrack] does with the verdict of [ac3]: after a
    tentative binding passes the [consistent] check and the domain is
    narrowed and re-propagated, the verdict [b] is dropped and the search
    recurses on the propagated domains whether it was [True] or [False].
    The outcome of the iteration is that of the recursive call, except that
    when the call reports failure the domain snapshot is restored and the
    loop moves on to the next candidate value, with the binding still in
    place. *)
Lemma try_value_recurses_whatever_ac3_reports fuel var value A D b D2 :
  consistent c (dict_set var value A) = Ok true →
  ac3 c (Some (assigned_arcs c (dict_set var value A))) (<[var := {[value]}]> D)
    = Some (Ok b, D2) →
  try_value c (backtrack c fuel) var value A D =
    match backtrack c fuel (dict_set var value A) D2 with
    | Some (Ok None, _) => Some (Ok None, (dict_set var value A, D))
    | r => r
    end.
Proof.
  intros Hcons Hac. rewrite (try_value_consistent c _ _ _ _ _ _ _ Hcons Hac).
  destruct (backtrack c fuel _ D2) as [[[[res|]|e] [A2 D3]]|] eqn:Hrec; try done.
  by apply backtrack_restoring in Hrec as [-> _].
Qed.

(** C6 (as the code has it). On the failure path of [backtrack] where at
    least one candidate value of the selected variable was tried and none
    led to success, the variable is still bound when the loop ends, to the
    last candidate tried; the closing removal deletes that binding, which
    gives back the assignment [backtrack] was called with, and failure is
    reported upward. *)
Theorem exhausted_loop_leaves_last_binding fuel A D var values A' D' :
  select_unassigned_variable c A D = Ok var →
  order_domain_values c var A D = Ok values →
  values ≠ [] →
  try_values c (backtrack c fuel) var values A D = Some (Ok None, (A', D')) →
  dict_get var A' = last values ∧
  dict_del var A' = Some A ∧
  backtrack c (S fuel) A D = Some (Ok None, (A, D)).
Proof.
  intros Hsel Hvalues Hne Hloop.
  pose proof (select_unassigned_variable_unassigned c _ _ _ Hsel) as [Hvar Hfresh].
  assert (assignment_complete c A = false) as Hc.
  { apply not_true_is_false. intros Hc. apply assignment_complete_spec in Hc.
    apply Hc, dict_get_is_Some in Hvar. done. }
  simpl. unfold backtrack_body. rewrite Hc, Hsel, Hvalues, Hloop.
  apply try_values_None in Hloop as [-> ->]; [|apply backtrack_restoring].
  unfold rebound. destruct (last values) as [value|] eqn:Hlast.
  - rewrite dict_set_fresh, dict_del_fresh_app by done.
    split; [|done]. rewrite <- (dict_set_fresh _ value) by done. apply dict_get_set.
  - by apply last_None in Hlast.
Qed.

(** An iteration of the loop of [backtrack] falls through to the next
    candidate in two cases only: the candidate was rejected by
    [consistent], or the recursive call returned failure (whatever the
    propagation before it had reported). In both, [self.domains] is then
    equal to what it was before the binding. *)
Lemma failed_branch_restores_domains rec var value A D A' D' :
  try_value c rec var value A D = Some (Ok None, (A', D')) →
  D' = D ∧
  (consistent c (dict_set var value A) = Ok false ∨
   consistent c (dict_set var value A) = Ok true ∧
   ∃ b D2 D3,
     ac3 c (Some (assigned_arcs c (dict_set var value A))) (<[var := {[value]}]> D)
       = Some (Ok b, D2) ∧
     rec (dict_set var value A) D2 = Some (Ok None, (A', D3))).
Proof.
  intros H. split; [by eapply try_value_None_domains|].
  unfold try_value in H.
  destruct (consistent c (dict_set var value A)) as [[]|]; [|by left|done].
  right. split; [done|].
  destruct (ac3 c _ _) as [[[b|] D2]|]; [|done..].
  destruct (rec _ _) as [[[[res|]|] [A2 D3]]|] eqn:Hrec; [done| |done..].
  injection H as <- <-. by exists b, D2, D3.
Qed.

(** C8. A call [revise(x, y)] leaves the domain of every variable other
    than [x] as it was (that of [y] is only read); when the table records no
    overlap for [(x, y)] it leaves the whole store as it was and returns
    [False]. *)
Theorem revise_frame x y D :
  (∀ z, z ≠ x → (revise c x y D).2 !! z = D !! z) ∧
  (overlaps c x y = None → revise c x y D = (Ok false, D)).
Proof.
  split.
  - intros z Hz. destruct (revise c x y D) as [[res|e] D'] eqn:Hrev; simpl.
    + apply revise_Ok in Hrev as [(_ & _ & ->)|(ix & iy & dx & tmp & _ & _ & -> & _)];
        [done | by rewrite lookup_insert_ne].
    + by apply revise_not_Ok in Hrev as ->.
  - unfold revise. by intros ->.
Qed.

(** C9. Domains only shrink: [enforce_node_consistency], [revise] and
    [ac3] (which always returns) leave each variable's domain a subset of
    what it was, and so does the narrowing to a candidate value followed by
    the [ac3] run that [backtrack] makes before it recurses. *)
Theorem domains_only_shrink D :
  shrinks (enforce_node_consistency c D).2 D ∧
  (∀ x y, shrinks (revise c x y D).2 D) ∧
  (∀ arcs, ∃ r D', ac3 c arcs D = Some (r, D') ∧ shrinks D' D) ∧
  (∀ var A values value,
     order_domain_values c var A D = Ok values → value ∈ values →
     ∃ r D',
       ac3 c (Some (assigned_arcs c (dict_set var value A))) (<[var := {[value]}]> D)
         = Some (r, D') ∧
       shrinks D' D).
Proof.
  assert (∀ arcs D0, ∃ r D', ac3 c arcs D0 = Some (r, D') ∧ shrinks D' D0) as Hac3.
  { intros arcs D0. destruct (ac3_terminates c arcs D0) as [[r D'] Hac].
    exists r, D'. split; [done | by eapply ac3_shrinks]. }
  split; [apply enforce_node_consistency_loop_shrinks|].
  split; [intros x y; apply revise_shrinks|].
  split; [intros arcs; apply Hac3|].
  intros var A values value Hvalues Hvalue.
  apply order_domain_values_Permutation in Hvalues as (dv & Hdv & Hperm).
  rewrite Hperm in Hvalue. apply elem_of_elements in Hvalue.
  destruct (Hac3 (Some (assigned_arcs c (dict_set var value A))) (<[var := {[value]}]> D))
    as (r & D' & Hac & Hsh).
  exists r, D'. split; [done|]. eapply shrinks_trans; [done|].
  eapply shrinks_insert; [done | set_solver].
Qed.

(** C10. The list returned by [order_domain_values] is a permutation of
    the current domain of [var]: it holds exactly the words of
    [self.domains[var]], each once. *)
Theorem order_domain_values_is_permutation var A D values :
  order_domain_values c var A D = Ok values →
  ∃ dv, D !! var = Some dv ∧
    values ≡ₚ elements dv ∧ NoDup values ∧ ∀ w, w ∈ values ↔ w ∈ dv.
Proof.
  intros H. apply order_domain_values_Permutation in H as (dv & Hdv & Hperm).
  exists dv. split; [done|]. split; [done|]. split.
  - rewrite Hperm. apply NoDup_elements.
  - intros w. by rewrite Hperm, elem_of_elements.
Qed.

End Claims.

(* ===================================================================== *)
(** ** Concrete runs *)
(* ===================================================================== *)

Lemma start_domains_ring : start_domains ring = ring_domains.
Proof. vm_compute. reflexivity. Qed.

(** [ring] is a structure as the collaborator supplies them, and its start
    domains are arc consistent. *)
Lemma ring_structure_ok : structure_ok ring.
Proof.
  split.
  - intros x v. unfold ring, crossword_of. cbn [neighbors variables overlaps].
    rewrite elem_of_filter. naive_solver.
  - intros x y i j H. unfold ring, crossword_of, table_overlaps in *.
    cbn [overlaps] in *. apply elem_of_list_to_map_2 in H.
    repeat (apply elem_of_cons in H as [H|H]; [by simplify_eq|]).
    by apply elem_of_nil in H.
Qed.

Lemma ring_domains_arc_consistent x y :
  x ∈ variables ring → y ∈ variables ring → x ≠ y →
  arc_consistent ring ring_domains x y.
Proof.
  apply (ac3_arc_consistent ring (enforce_node_consistency ring (init_domains ring)).2);
    [apply ring_structure_ok | vm_compute; reflexivity].
Qed.

(** [cat_tar] is solved by CAT across and TAR down, and that assignment
    is complete and valid. *)
Lemma solve_returns_valid_assignment_witness :
  complete cat_tar [(row3, "CAT"); (col3, "TAR")] ∧
  valid_assignment cat_tar [(row3, "CAT"); (col3, "TAR")].
Proof.
  apply (solve_returns_valid_assignment cat_tar _
           ([(row3, "CAT"); (col3, "TAR")],
            list_to_map [(row3, {["CAT"]}); (col3, {["TAR"]})])).
  vm_compute. reflexivity.
Defined.

(** C2. When the vocabulary has no word of the length of some variable,
    [solve] should return the no-solution value [None]. On [no_fit], one
    slot of three cells with the vocabulary AB, node consistency empties the
    only domain, and [solve] raises [KeyError] instead. *)
Theorem solve_no_fit_raises_KeyError :
  (enforce_node_consistency no_fit (init_domains no_fit)).2 !! row3 = Some ∅ ∧
  solve no_fit = Some (Raise KeyError, ([], {[row3 := ∅]})).
Proof. split; vm_compute; reflexivity. Qed.

(** C3. [order_domain_values] should put the least constraining value
    first. On [corner], where BAA rules out three words of the neighbour and
    AAB and AAA two each, it returns BAA first: the list is in descending
    order of the elimination count. *)
Theorem order_domain_values_most_constraining_first :
  order_domain_values corner row3 [] (start_domains corner)
    = Ok ["BAA"; "AAB"; "AAA"] ∧
  result_map (ruled_out corner row3 [] (start_domains corner)) ["BAA"; "AAB"; "AAA"]
    = Ok [3; 2; 2].
Proof. split; vm_compute; reflexivity. Qed.

Lemma ring_solvable_variables x :
  x ∈ variables ring_solvable → x = top ∨ x = left ∨ x = right ∨ x = mid.
Proof.
  unfold ring_solvable, crossword_of. cbn [variables]. intros Hx.
  apply elem_of_list_to_set in Hx.
  repeat (apply elem_of_cons in Hx as [Hx|Hx]; [by auto|]). by apply elem_of_nil in Hx.
Qed.

(** AAA, AACA, AADAA and CCDCCC solve [ring_solvable]. *)
Lemma ring_solvable_solution : solution ring_solvable ring_solution.
Proof.
  split.
  - intros x Hx.
    apply ring_solvable_variables in Hx as [->|[->|[->| ->]]]; vm_compute; reflexivity.
  - intros x Hx. by apply ring_solvable_variables in Hx as [->|[->|[->| ->]]].
  - intros x y Hx Hy.
    apply ring_solvable_variables in Hx as [->|[->|[->| ->]]];
      apply ring_solvable_variables in Hy as [->|[->|[->| ->]]]; done.
  - intros x y i j Hx Hy Hne.
    apply ring_solvable_variables in Hx as [->|[->|[->| ->]]];
      apply ring_solvable_variables in Hy as [->|[->|[->| ->]]];
      try done; intros [= <- <-]; eexists; split; vm_compute; reflexivity.
Qed.

(** C4. When the propagation that follows a tentative binding reports
    infeasibility, [backtrack] should not recurse on that branch: it should
    restore the snapshot, undo the binding and move on to the next
    candidate. On [ring_solvable], which has a solution, [top] is selected
    and BBB is its first candidate; the binding is consistent and [ac3]
    answers [False] ([mid] is left without a word). The verdict is dropped
    and the recursive call is made: it selects [mid], has nothing to try and
    raises [KeyError] at the closing [del]. The snapshot is not restored,
    the binding is not undone, the next candidate AAA, which leads to an
    assignment, is never tried, and [solve] ends in that [KeyError]. *)
Theorem infeasible_branch_crashes_solvable_crossword :
  solution ring_solvable ring_solution ∧
  start_domains ring_solvable = ring_solvable_domains ∧
  select_unassigned_variable ring_solvable [] ring_solvable_domains = Ok top ∧
  order_domain_values ring_solvable top [] ring_solvable_domains = Ok ["BBB"; "AAA"] ∧
  consistent ring_solvable [(top, "BBB")] = Ok true ∧
  ac3 ring_solvable (Some (assigned_arcs ring_solvable [(top, "BBB")]))
    (<[top := {["BBB"]}]> ring_solvable_domains) = Some (Ok false, ring_domains_BBB) ∧
  select_unassigned_variable ring_solvable [(top, "BBB")] ring_domains_BBB = Ok mid ∧
  order_domain_values ring_solvable mid [(top, "BBB")] ring_domains_BBB = Ok [] ∧
  backtrack ring_solvable 4 [(top, "BBB")] ring_domains_BBB
    = Some (Raise KeyError, ([(top, "BBB")], ring_domains_BBB)) ∧
  try_value ring_solvable (backtrack ring_solvable 4) top "BBB" [] ring_solvable_domains
    = Some (Raise KeyError, ([(top, "BBB")], ring_domains_BBB)) ∧
  (∃ res st,
     try_value ring_solvable (backtrack ring_solvable 4) top "AAA" [] ring_solvable_domains
       = Some (Ok (Some res), st)) ∧
  solve ring_solvable = Some (Raise KeyError, ([(top, "BBB")], ring_domains_BBB)).
Proof.
  split; [apply ring_solvable_solution|].
  repeat (split; [vm_compute; reflexivity|]).
  split; [|vm_compute; reflexivity].
  do 2 eexists. vm_compute. reflexivity.
Qed.

(** C5. [ac3] should answer [True] only when no domain is empty. On
    [no_fit], after node consistency, the only domain is empty, there is no
    arc to revise, and [ac3] answers [True]. *)
Theorem ac3_true_with_empty_domain :
  (enforce_node_consistency no_fit (init_domains no_fit)).2 = {[row3 := ∅]} ∧
  ac3 no_fit None {[row3 := ∅]} = Some (Ok true, {[row3 := ∅]}).
Proof. split; vm_compute; reflexivity. Qed.

(** C6, refuted as stated. On [twins], whichever of the two rows is selected
    first, its only candidate ABC fails (the other row can only take the
    same word), and when its loop ends the row is bound to ABC: the closing
    removal is what unbinds it. [solve] then returns [None]. *)
Lemma binding_present_when_loop_fails :
  order_domain_values twins low3 [] (start_domains twins) = Ok ["ABC"] ∧
  try_values twins (backtrack twins 2) low3 ["ABC"] [] (start_domains twins)
    = Some (Ok None, ([(low3, "ABC")], start_domains twins)) ∧
  dict_get low3 [(low3, "ABC")] = Some "ABC" ∧
  order_domain_values twins row3 [] (start_domains twins) = Ok ["ABC"] ∧
  try_values twins (backtrack twins 2) row3 ["ABC"] [] (start_domains twins)
    = Some (Ok None, ([(row3, "ABC")], start_domains twins)) ∧
  dict_get row3 [(row3, "ABC")] = Some "ABC" ∧
  solve twins = Some (Ok None, ([], start_domains twins)).
Proof. repeat split; vm_compute; reflexivity. Qed.

Lemma exhausted_loop_leaves_last_binding_witness :
  dict_get low3 [(low3, "ABC")] = last ["ABC"] ∧
  dict_del low3 [(low3, "ABC")] = Some [] ∧
  backtrack twins 3 [] (start_domains twins) = Some (Ok None, ([], start_domains twins)).
Proof.
  apply (exhausted_loop_leaves_last_binding twins 2 [] (start_domains twins) low3
           ["ABC"] [(low3, "ABC")] (start_domains twins)).
  - vm_compute. reflexivity.
  - vm_compute. reflexivity.
  - discriminate.
  - vm_compute. reflexivity.
Defined.

(** C7. After a tentative branch of [backtrack] that fails because the
    propagation reported infeasibility, [self.domains] should be what it
    was before the binding. On [ring], the branch that binds [top] to BBB
    is such a branch; the recursive call that is made all the same raises
    [KeyError], which passes the line that restores the snapshot, and
    [self.domains] is left narrowed: [solve] ends with domains that differ
    from those the branch started from. *)
Theorem infeasible_branch_leaves_domains_narrowed :
  select_unassigned_variable ring [] ring_domains = Ok top ∧
  order_domain_values ring top [] ring_domains = Ok ["BBB"; "AAA"] ∧
  (∃ D2, ac3 ring (Some (assigned_arcs ring [(top, "BBB")])) (<[top := {["BBB"]}]> ring_domains)
           = Some (Ok false, D2)) ∧
  try_value ring (backtrack ring 3) top "BBB" [] ring_domains
    = Some (Raise KeyError, ([(top, "BBB")], ring_domains_BBB)) ∧
  ring_domains_BBB ≠ ring_domains ∧
  solve ring = Some (Raise KeyError, ([(top, "BBB")], ring_domains_BBB)).
Proof.
  split; [vm_compute; reflexivity|]. split; [vm_compute; reflexivity|].
  split; [exists ring_domains_BBB; vm_compute; reflexivity|].
  split; [vm_compute; reflexivity|]. split; [|vm_compute; reflexivity].
  intros H. apply (f_equal (λ D : Domains, size <$> D !! mid)) in H.
  vm_compute in H. discriminate H.
Qed.

Lemma revise_frame_witness :
  (revise cat_tar row3 col3 (init_domains cat_tar)).2 !! col3 = init_domains cat_tar !! col3 ∧
  revise twins row3 low3 (init_domains twins) = (Ok false, init_domains twins).
Proof.
  split.
  - apply (revise_frame cat_tar row3 col3 (init_domains cat_tar)). discriminate.
  - apply (revise_frame twins row3 low3 (init_domains twins)). reflexivity.
Defined.

Lemma domains_only_shrink_witness :
  ∃ r D',
    ac3 ring (Some (assigned_arcs ring (dict_set top "BBB" []))) (<[top := {["BBB"]}]> ring_domains)
      = Some (r, D') ∧
    shrinks D' ring_domains.
Proof.
  apply (proj2 (proj2 (proj2 (domains_only_shrink ring ring_domains)))
           top [] ["BBB"; "AAA"] "BBB").
  - vm_compute. reflexivity.
  - left.
Defined.

Lemma order_domain_values_is_permutation_witness :
  ∃ dv, start_domains corner !! row3 = Some dv ∧
    ["BAA"; "AAB"; "AAA"] ≡ₚ elements dv ∧ NoDup ["BAA"; "AAB"; "AAA"] ∧
    ∀ w, w ∈ ["BAA"; "AAB"; "AAA"] ↔ w ∈ dv.
Proof.
  apply (order_domain_values_is_permutation corner row3 [] (start_domains corner)).
  vm_compute. reflexivity.
Defined.

(* ===================================================================== *)
(** ** Further properties: node consistency *)
(* ===================================================================== *)

Section NodeConsistency.

Context (c : Crossword).

Lemma filter_length_idemp (x : variable) (s : gset string) :
  filter (λ value, length x = String.length value)
    (filter (λ value, length x = String.length value) s)
  = filter (λ value, length x = String.length value) s.
Proof. apply set_eq. intros w. rewrite !elem_of_filter. naive_solver. Qed.

Lemma enforce_node_consistency_loop_exact vars D :
  (∀ v, v ∈ vars → is_Some (D !! v)) →
  ∃ D1, enforce_node_consistency_loop vars D = (Ok (), D1) ∧
    ∀ x, D1 !! x =
      if decide (x ∈ vars)
      then filter (λ value, length x = String.length value) <$> D !! x
      else D !! x.
Proof.
  revert D. induction vars as [|var vars IH]; intros D Hdom;
    cbn [enforce_node_consistency_loop].
  { exists D. split; [done|]. intros x. case_decide as Hx; [|done].
    by apply elem_of_nil in Hx. }
  destruct (Hdom var) as [s Hs]; [left|]. rewrite Hs.
  destruct (IH (<[var := filter (λ value, length var = String.length value) s]> D))
    as (D1 & Hloop & HD1).
  { intros v Hv. rewrite lookup_insert. case_decide; [done|]. apply Hdom. by right. }
  exists D1. split; [done|]. intros x. rewrite HD1, lookup_insert.
  destruct (decide (var = x)) as [->|Hne].
  - rewrite Hs. destruct (decide (x ∈ x :: vars)) as [_|Hx]; [|by destruct Hx; left].
    destruct (decide (x ∈ vars)); [|done].
    cbn [fmap option_fmap option_map]. by rewrite filter_length_idemp.
  - destruct (decide (x ∈ vars)) as [Hin|Hin];
      destruct (decide (x ∈ var :: vars)) as [Hin'|Hin']; try done.
    + destruct Hin'. by right.
    + apply elem_of_cons in Hin' as [->|?]; done.
Qed.

Lemma enforce_node_consistency_loop_missing vars D v :
  v ∈ vars → D !! v = None →
  (enforce_node_consistency_loop vars D).1 = Raise KeyError.
Proof.
  revert D. induction vars as [|var vars IH]; intros D Hv Hnone; simpl.
  { by apply elem_of_nil in Hv. }
  destruct (D !! var) as [s|] eqn:Hs; [|done].
  apply elem_of_cons in Hv as [->|Hv]; [congruence|].
  apply IH; [done|]. rewrite lookup_insert_ne; [done | congruence].
Qed.

Lemma enforce_node_consistency_exact D :
  (∀ v, v ∈ variables c → is_Some (D !! v)) →
  ∃ D1, enforce_node_consistency c D = (Ok (), D1) ∧
    ∀ x, D1 !! x =
      if decide (x ∈ variables c)
      then filter (λ value, length x = String.length value) <$> D !! x
      else D !! x.
Proof.
  intros Hdom. unfold enforce_node_consistency.
  destruct (enforce_node_consistency_loop_exact (elements (variables c)) D)
    as (D1 & Hloop & HD1).
  { intros v Hv. by apply Hdom, elem_of_elements. }
  exists D1. split; [done|]. intros x. rewrite HD1.
  destruct (decide (x ∈ variables c)) as [Hx|Hx];
    destruct (decide (x ∈ elements (variables c))) as [Hx'|Hx']; try done.
  - destruct Hx'. by apply elem_of_elements.
  - destruct Hx. by apply elem_of_elements.
Qed.

Lemma enforce_node_consistency_missing D v :
  v ∈ variables c → D !! v = None →
  (enforce_node_consistency c D).1 = Raise KeyError.
Proof.
  intros Hv Hnone. eapply enforce_node_consistency_loop_missing; [|done].
  by apply elem_of_elements.
Qed.

Lemma init_domains_lookup x :
  init_domains c !! x = if decide (x ∈ variables c) then Some (words c) else None.
Proof.
  unfold init_domains. rewrite lookup_gset_to_gmap.
  destruct (decide (x ∈ variables c));
    [by rewrite option_guard_True | by rewrite option_guard_False].
Qed.

Lemma enforce_node_consistency_init :
  ∃ D1, enforce_node_consistency c (init_domains c) = (Ok (), D1) ∧
    ∀ x, D1 !! x =
      if decide (x ∈ variables c)
      then Some (filter (λ value, length x = String.length value) (words c))
      else None.
Proof.
  destruct (enforce_node_consistency_exact (init_domains c)) as (D1 & Hrun & HD1).
  { intros v Hv. rewrite init_domains_lookup. by destruct (decide (v ∈ variables c)). }
  exists D1. split; [done|]. intros x. rewrite HD1, init_domains_lookup.
  by destruct (decide (x ∈ variables c)).
Qed.

(** X1. [enforce_node_consistency] returns normally exactly when every
    variable of the crossword has a domain: it then leaves to each variable
    the words of its domain that have the variable's length, no more and no
    fewer, and does not touch anything else in the store; when some variable
    has no domain it raises [KeyError]. *)
Theorem enforce_node_consistency_filters D :
  ((∀ v, v ∈ variables c → is_Some (D !! v)) →
   ∃ D1, enforce_node_consistency c D = (Ok (), D1) ∧
     ∀ x, D1 !! x =
       if decide (x ∈ variables c)
       then filter (λ value, length x = String.length value) <$> D !! x
       else D !! x) ∧
  (∀ v, v ∈ variables c → D !! v = None →
   (enforce_node_consistency c D).1 = Raise KeyError).
Proof.
  split; [apply enforce_node_consistency_exact|apply enforce_node_consistency_missing].
Qed.

(** X2. [enforce_node_consistency] is idempotent: run on the store it has
    just produced, it returns normally and leaves that store as it is. *)
Theorem enforce_node_consistency_idempotent D D1 :
  enforce_node_consistency c D = (Ok (), D1) →
  enforce_node_consistency c D1 = (Ok (), D1).
Proof.
  intros Hrun.
  assert (∀ v, v ∈ variables c → is_Some (D !! v)) as Hdom.
  { intros v Hv. destruct (D !! v) eqn:Hnone; [done|].
    pose proof (enforce_node_consistency_missing D v Hv Hnone) as Hraise.
    by rewrite Hrun in Hraise. }
  destruct (enforce_node_consistency_exact D Hdom) as (D1' & Hrun' & HD1).
  rewrite Hrun in Hrun'. injection Hrun' as <-.
  destruct (enforce_node_consistency_exact D1) as (D2 & Hrun2 & HD2).
  { intros v Hv. rewrite HD1. destruct (decide (v ∈ variables c)); [|done].
    by destruct (Hdom v Hv) as [s ->]. }
  rewrite Hrun2. f_equal. apply map_eq. intros x. rewrite HD2.
  destruct (decide (x ∈ variables c)) as [Hx|Hx]; [|done]. rewrite HD1.
  destruct (decide (x ∈ variables c)); [|done].
  destruct (D !! x) as [s|]; [|done]. simpl. by rewrite filter_length_idemp.
Qed.

(** X3. On the store built by [__init__], [enforce_node_consistency] never
    raises, and it leaves to each variable exactly the words of the
    vocabulary that have its length. *)
Theorem enforce_node_consistency_start :
  ∃ D1, enforce_node_consistency c (init_domains c) = (Ok (), D1) ∧
    ∀ x, D1 !! x =
      if decide (x ∈ variables c)
      then Some (filter (λ value, length x = String.length value) (words c))
      else None.
Proof. apply enforce_node_consistency_init. Qed.

End NodeConsistency.

(* ===================================================================== *)
(** ** Further properties: [revise] and [ac3] *)
(* ===================================================================== *)

Section Propagation.

Context (c : Crossword).

Lemma supported_iff_agree D y ix iy dy w :
  D !! y = Some dy →
  supported D y ix iy w ∨ unsupported D y ix iy w →
  supported D y ix iy w ↔ ∃ wy, wy ∈ dy ∧ agree w wy ix iy.
Proof.
  intros Hy Hcases. split.
  - intros Hs. apply supported_agree in Hs as (dy' & wy & Hy' & Hwy & Hag).
    simplify_eq. by exists wy.
  - intros (wy & Hwy & Hag). destruct Hcases as [?|Hun]; [done|].
    exfalso. by eapply unsupported_agree.
Qed.

(** X4. A call [revise(x, y)] that returns, for two variables with a
    defined overlap, leaves to [x] exactly the words it had that agree with
    some word of [y] on the shared cell, and it returns [True] exactly when
    the domain of [x] has changed. *)
Theorem revise_keeps_supported_words x y D res D' ix iy dx dy :
  overlaps c x y = Some (ix, iy) → D !! x = Some dx → D !! y = Some dy →
  revise c x y D = (Ok res, D') →
  ∃ dx', D' !! x = Some dx' ∧
    (∀ w, w ∈ dx' ↔ w ∈ dx ∧ ∃ wy, wy ∈ dy ∧ agree w wy ix iy) ∧
    (res = true ↔ dx' ≠ dx).
Proof.
  intros Hov Hx Hy Hrev.
  apply revise_Ok in Hrev
    as [(? & _)|(ix' & iy' & dx0 & tmp & Hov' & Hx' & -> & Htmp & Hres & Hall)];
    [congruence|].
  simplify_eq. exists tmp. rewrite lookup_insert_eq. split; [done|].
  assert (∀ w, w ∈ tmp ↔ w ∈ dx ∧ ∃ wy, wy ∈ dy ∧ agree w wy ix iy) as Hkept.
  { intros w. rewrite Htmp. split.
    - intros [Hw Hs]. split; [done|]. by eapply supported_iff_agree; eauto.
    - intros [Hw Hag]. split; [done|]. by eapply supported_iff_agree; eauto. }
  split; [done|]. destruct res.
  - split; [|done]. intros _ ->.
    destruct (proj1 Hres eq_refl) as (w & Hw & Hun).
    apply Htmp in Hw as [_ Hs]. by eapply supported_unsupported.
  - split; [done|]. intros Hne. destruct Hne. apply set_eq. intros w.
    rewrite Htmp. split; [by intros [? _]|]. intros Hw. split; [done|].
    destruct (Hall w Hw) as [?|Hun]; [done|].
    assert (false = true) by (apply Hres; eauto). done.
Qed.

Lemma any_match_in_range x_value ix iy ys :
  ix < String.length x_value →
  (∀ wy, wy ∈ ys → iy < String.length wy) →
  ∃ b, any_match x_value ix iy ys = Ok b.
Proof.
  intros Hx. induction ys as [|wy ys IH]; intros Hys; simpl; [by exists false|].
  assert (∀ w i, i < String.length w → ∃ ch, str_index w i = Ok ch) as Hget.
  { clear. intros w. induction w as [|a w IH]; intros i Hi; simpl in Hi; [lia|].
    unfold str_index. destruct i as [|i]; simpl; [by eexists|].
    destruct (IH i) as [ch Hch]; [lia|]. unfold str_index in Hch. exact (ex_intro _ ch Hch). }
  destruct (Hget x_value ix Hx) as [a ->].
  destruct (Hget wy iy) as [b ->]; [apply Hys; left|]. simpl.
  case_decide; [by exists true|]. apply IH. intros wy' Hwy'. apply Hys. by right.
Qed.

Lemma revise_loop_in_range D y ix iy dy xs acc :
  D !! y = Some dy →
  (∀ w, w ∈ xs → ix < String.length w) →
  (∀ wy, wy ∈ dy → iy < String.length wy) →
  ∃ r, revise_loop D y ix iy xs acc = Ok r.
Proof.
  intros Hy Hxs Hdy. revert acc. induction xs as [|w xs IH]; intros acc; simpl.
  { by eexists. }
  unfold dom_get. rewrite Hy. simpl.
  destruct (any_match_in_range w ix iy (elements dy)) as [b ->].
  { apply Hxs. left. }
  { intros wy Hwy. by apply Hdy, elem_of_elements. }
  simpl. apply IH. intros w' Hw'. apply Hxs. by right.
Qed.

(** X5. The exceptions of [revise], for two variables with a defined
    overlap: it raises [KeyError], leaving the store as it was, when [x] has
    no domain; it returns normally when both have a domain and every word
    of each is long enough for its offset of the overlap. *)
Theorem revise_exceptions x y D ix iy :
  overlaps c x y = Some (ix, iy) →
  (D !! x = None → revise c x y D = (Raise KeyError, D)) ∧
  (∀ dx dy, D !! x = Some dx → D !! y = Some dy →
     (∀ w, w ∈ dx → ix < String.length w) →
     (∀ w, w ∈ dy → iy < String.length w) →
     ∃ res D', revise c x y D = (Ok res, D')).
Proof.
  intros Hov. unfold revise, dom_get. rewrite Hov. split.
  - by intros ->.
  - intros dx dy Hx Hy Hdx Hdy. rewrite Hx.
    destruct (revise_loop_in_range D y ix iy dy (elements dx) (false, ∅))
      as [[res tmp] ->]; [done| |done|by eexists _, _].
    intros w Hw. by apply Hdx, elem_of_elements.
Qed.

Lemma ac3_loop_fuel_mono fuel k arcs D r :
  ac3_loop c fuel arcs D = Some r → ac3_loop c (fuel + k) arcs D = Some r.
Proof.
  revert arcs D. induction fuel as [|fuel IH]; intros arcs D; simpl; [done|].
  destruct arcs as [|[x y] arcs]; [done|].
  destruct (revise c x y D) as [[[]|] D1]; [|by apply IH|done].
  destruct (dom_get D1 x) as [dx|]; [|done]. case_decide; [done | by apply IH].
Qed.

(** X6. The [while] loop of [ac3] terminates on every store and every list
    of arcs: it is over within
    [total_size D * (max_degree D + 1) + len(arcs) + 1] iterations, and
    allowing more iterations does not change what it returns. *)
Theorem ac3_loop_is_bounded arcs D :
  ∃ r, ac3 c (Some arcs) D = Some r ∧
    ∀ fuel, ac3_fuel c arcs D ≤ fuel → ac3_loop c fuel arcs D = Some r.
Proof.
  destruct (ac3_terminates c (Some arcs) D) as [r Hr]. exists r. split; [done|].
  intros fuel Hfuel. unfold ac3 in Hr.
  replace fuel with (ac3_fuel c arcs D + (fuel - ac3_fuel c arcs D)) by lia.
  by apply ac3_loop_fuel_mono.
Qed.

(** X7. After the default invocation [ac3()] has returned [True] on a
    crossword whose overlap table is symmetric and whose [neighbors] are the
    variables with a defined overlap, every arc is consistent: for two
    distinct variables [x], [y] with a defined overlap, each word left to
    [x] agrees with some word left to [y] on the shared cell. *)
Theorem ac3_default_enforces_arc_consistency D D' x y :
  structure_ok c → ac3 c None D = Some (Ok true, D') →
  x ∈ variables c → y ∈ variables c → x ≠ y → arc_consistent c D' x y.
Proof. apply ac3_arc_consistent. Qed.

Lemma ac3_loop_false fuel arcs D D' :
  ac3_loop c fuel arcs D = Some (Ok false, D') → ∃ x, D' !! x = Some ∅.
Proof.
  revert arcs D. induction fuel as [|fuel IH]; intros arcs D; simpl; [done|].
  destruct arcs as [|[x y] arcs]; [done|].
  destruct (revise c x y D) as [[[]|] D1]; [|by apply IH|done].
  destruct (dom_get D1 x) as [dx|] eqn:Hdx; [|done]. apply dom_get_Ok in Hdx.
  case_decide as Hsize; [|by apply IH]. intros [= <-]. exists x. rewrite Hdx.
  f_equal. by apply leibniz_equiv, size_empty_inv.
Qed.

(** X8. [ac3] answers [False] only on a wipe-out: whenever it returns
    [False], with whatever list of arcs, some variable is left with an empty
    domain. *)
Theorem ac3_false_means_empty_domain arcs D D' :
  ac3 c arcs D = Some (Ok false, D') → ∃ x, D' !! x = Some ∅.
Proof. apply ac3_loop_false. Qed.

(** X9. If no domain is empty when [ac3] is called and it returns [True],
    with whatever list of arcs, no domain is empty afterwards. *)
Theorem ac3_true_keeps_domains_nonempty arcs D D' :
  nonempty_domains D → ac3 c arcs D = Some (Ok true, D') → nonempty_domains D'.
Proof. apply ac3_nonempty. Qed.

End Propagation.

(* ===================================================================== *)
(** ** Further properties: [consistent] and the heuristics *)
(* ===================================================================== *)

Section Choices.

Context (c : Crossword).

Lemma consistent_inner_agree x wx ys :
  (∀ y wy i j, (y, wy) ∈ ys → x ≠ y → overlaps c x y = Some (i, j) → agree wx wy i j) →
  consistent_inner c x wx ys = Ok true.
Proof.
  induction ys as [|[y wy] ys IH]; intros Hag; simpl; [done|].
  assert (consistent_inner c x wx ys = Ok true) as Hrest.
  { apply IH. intros y' wy' i j Hin. apply Hag. by right. }
  case_decide; [done|].
  destruct (overlaps c x y) as [[i j]|] eqn:Hov; [|done].
  assert (agree wx wy i j) as (ch & Hx & Hy) by (apply (Hag y); [left|done..]).
  apply str_index_Ok in Hx, Hy. rewrite Hx, Hy. simpl. by rewrite decide_True.
Qed.

Lemma consistent_outer_all xs A :
  (∀ x wx, (x, wx) ∈ xs →
     length x = String.length wx ∧ consistent_inner c x wx A = Ok true) →
  consistent_outer c xs A = Ok true.
Proof.
  induction xs as [|[x wx] xs IH]; intros Hall; simpl; [done|].
  destruct (Hall x wx) as [Hlen Hinner]; [left|].
  rewrite decide_True by done. rewrite Hinner. simpl.
  apply IH. intros x' wx' Hin. apply Hall. by right.
Qed.

Lemma valid_assignment_consistent A :
  valid_assignment c A → consistent c A = Ok true.
Proof.
  intros [Hdistinct Hlength Hoverlap].
  unfold consistent. rewrite decide_True.
  - apply consistent_outer_all. intros x wx Hx. split; [by apply Hlength|].
    apply consistent_inner_agree. intros y wy i j Hy Hne Hov. by eapply Hoverlap.
  - by rewrite size_list_to_set, length_fmap.
Qed.

(** X10. [consistent] returns [True] exactly on the assignments in which
    the bound words are pairwise distinct, each word has the length of its
    variable, and any two bound variables with a defined overlap carry the
    same letter in the shared cell. *)
Theorem consistent_true_iff_valid A :
  consistent c A = Ok true ↔ valid_assignment c A.
Proof. split; [apply consistent_valid | apply valid_assignment_consistent]. Qed.

Lemma foldl_max_ge_init l a : a ≤ foldl Nat.max a l.
Proof.
  revert a. induction l as [|b l IH]; intros a; simpl; [done|].
  etransitivity; [|apply IH]. lia.
Qed.

Lemma foldl_max_ge l a n : n ∈ l → n ≤ foldl Nat.max a l.
Proof.
  revert a. induction l as [|b l IH]; intros a Hn; simpl.
  - by apply elem_of_nil in Hn.
  - apply elem_of_cons in Hn as [->|Hn]; [|by apply IH].
    etransitivity; [|apply foldl_max_ge_init]. lia.
Qed.

Lemma list_max_ge l m n : list_max l = Ok m → n ∈ l → n ≤ m.
Proof.
  destruct l as [|a l]; [done|]. simpl. intros [= <-] Hn.
  apply elem_of_cons in Hn as [->|Hn];
    [apply foldl_max_ge_init | by apply foldl_max_ge].
Qed.

Lemma foldl_min_elem_of l a : foldl Nat.min a l ∈ a :: l.
Proof.
  revert a. induction l as [|b l IH]; intros a; simpl; [left|].
  specialize (IH (a `min` b)). apply elem_of_cons in IH as [Heq|Hin].
  - rewrite Heq. destruct (Nat.min_spec a b) as [[_ ->]|[_ ->]]; [left | right; left].
  - right. by right.
Qed.

Lemma foldl_max_elem_of l a : foldl Nat.max a l ∈ a :: l.
Proof.
  revert a. induction l as [|b l IH]; intros a; simpl; [left|].
  specialize (IH (a `max` b)). apply elem_of_cons in IH as [Heq|Hin].
  - rewrite Heq. destruct (Nat.max_spec a b) as [[_ ->]|[_ ->]]; [right; left | left].
  - right. by right.
Qed.

Lemma result_filter_Ok {A} (p : A → result bool) l :
  (∀ x, x ∈ l → ∃ b, p x = Ok b) → ∃ ys, result_filter p l = Ok ys.
Proof.
  induction l as [|x l IH]; intros Hp; simpl; [by eexists|].
  destruct (Hp x) as [b ->]; [left|]. simpl.
  destruct IH as [ys ->]; [|by eexists].
  intros x' Hx'. apply Hp. by right.
Qed.

Lemma result_map_Ok {A B} (f : A → result B) l :
  (∀ x, x ∈ l → ∃ y, f x = Ok y) → ∃ ys, result_map f l = Ok ys.
Proof.
  induction l as [|x l IH]; intros Hf; simpl; [by eexists|].
  destruct (Hf x) as [y ->]; [left|]. simpl.
  destruct IH as [ys ->]; [|by eexists].
  intros x' Hx'. apply Hf. by right.
Qed.

(** X11. The variable returned by [select_unassigned_variable] is a variable
    of the crossword that the assignment does not bind; no unbound variable
    has a smaller domain (minimum remaining values), and among the unbound
    variables whose domain is as small, none has more neighbours. *)
Theorem select_unassigned_variable_choice A D var :
  select_unassigned_variable c A D = Ok var →
  var ∈ variables c ∧ (var ∉ keys A) ∧
  ∃ dv, D !! var = Some dv ∧
    ∀ u, u ∈ variables c → u ∉ keys A →
      ∃ du, D !! u = Some du ∧ size dv ≤ size du ∧
        (size du = size dv → size (neighbors c u) ≤ size (neighbors c var)).
Proof.
  intros Hsel.
  pose proof (select_unassigned_variable_unassigned c _ _ _ Hsel) as [Hvar Hfresh].
  pose proof (select_unassigned_variable_minimal c _ _ _ Hsel) as (dv & Hdv & Hmin).
  split; [done|]. split; [done|]. exists dv. split; [done|].
  intros u Hu Hufresh. destruct (Hmin u Hu Hufresh) as (du & Hdu & Hle).
  exists du. split; [done|]. split; [done|]. intros Hsize.
  unfold select_unassigned_variable in Hsel.
  apply bind_Ok in Hsel as (sizes & Hsizes & H).
  apply bind_Ok in H as (min_values & Hminv & H).
  apply bind_Ok in H as (sel & Hfilter & H). apply bind_Ok in H as (sel' & Hsel' & H).
  assert (var ∈ sel') as Hvar'.
  { destruct sel' as [|v ?]; [done|]. injection H as ->. left. }
  assert (∀ v, v ∈ sel ↔
            v ∈ elements (variables c ∖ keys A) ∧
            ∃ d, D !! v = Some d ∧ size d = min_values) as Hsel_spec.
  { intros v. rewrite (result_filter_elem_of _ _ _ v Hfilter). split.
    - intros [Hv Hp]. split; [done|]. apply bind_Ok in Hp as (d & Hd & [= Hp]).
      apply dom_get_Ok in Hd. apply bool_decide_eq_true in Hp. eauto.
    - intros [Hv (d & Hd & Hp)]. split; [done|]. unfold dom_get. rewrite Hd. simpl.
      by rewrite bool_decide_eq_true_2. }
  assert (var ∈ sel) as Hvar_sel.
  { case_decide.
    - apply bind_Ok in Hsel' as (m & _ & [= <-]).
      by apply list_elem_of_filter in Hvar' as [_ ?].
    - by injection Hsel' as <-. }
  apply Hsel_spec in Hvar_sel as [_ (dv' & Hdv' & Hdv_min)]. simplify_eq.
  assert (u ∈ sel) as Hu_sel.
  { apply Hsel_spec. split; [apply elem_of_elements; set_solver | eauto]. }
  case_decide as Hlen.
  - apply bind_Ok in Hsel' as (m & Hm & [= <-]).
    apply list_elem_of_filter in Hvar' as [-> _].
    eapply list_max_ge; [done|]. apply list_elem_of_fmap. by exists u.
  - injection Hsel' as <-.
    destruct sel as [|v [|v' sel]]; simpl in Hlen; try done.
    apply list_elem_of_singleton in Hu_sel, Hvar'. by subst.
Qed.

(** X12. The exceptions of [select_unassigned_variable]: when the
    assignment binds every variable of the crossword it raises [ValueError]
    (the [min] of an empty list); when some variable is unbound and every
    unbound variable has a domain, it returns a variable. *)
Theorem select_unassigned_variable_exceptions A D :
  (variables c ⊆ keys A → select_unassigned_variable c A D = Raise ValueError) ∧
  (∀ v, v ∈ variables c → v ∉ keys A →
     (∀ u, u ∈ variables c → u ∉ keys A → is_Some (D !! u)) →
     ∃ var, select_unassigned_variable c A D = Ok var).
Proof.
  split.
  - intros Hall. unfold select_unassigned_variable.
    assert (variables c ∖ keys A = ∅) as -> by set_solver.
    by rewrite elements_empty.
  - intros v Hv Hfresh Hdom. unfold select_unassigned_variable.
    set (us := elements (variables c ∖ keys A)).
    assert (∀ u, u ∈ us → is_Some (D !! u)) as Hus.
    { intros u Hu. apply elem_of_elements in Hu. apply Hdom; set_solver. }
    assert (v ∈ us) as Hv_us by (apply elem_of_elements; set_solver).
    destruct (result_map_Ok (λ var, dv ← dom_get D var; Ok (size dv)) us) as [sizes Hsizes].
    { intros u Hu. destruct (Hus u Hu) as [du Hdu]. unfold dom_get. rewrite Hdu.
      by eexists. }
    rewrite Hsizes. simpl.
    pose proof (result_map_length _ _ _ Hsizes) as Hlen.
    destruct sizes as [|n sizes].
    { symmetry in Hlen. apply length_zero_iff_nil in Hlen. rewrite Hlen in Hv_us.
      by apply elem_of_nil in Hv_us. }
    simpl.
    set (min_values := foldl Nat.min n sizes).
    destruct (result_filter_Ok
                (λ var, dv ← dom_get D var; Ok (bool_decide (size dv = min_values))) us)
      as [sel Hsel].
    { intros u Hu. destruct (Hus u Hu) as [du Hdu]. unfold dom_get. rewrite Hdu.
      by eexists. }
    rewrite Hsel. simpl.
    assert (sel ≠ []) as Hsel_ne.
    { pose proof (foldl_min_elem_of sizes n) as Hmin. fold min_values in Hmin.
      apply list_elem_of_lookup_1 in Hmin as [i Hi].
      apply result_map_Forall2 in Hsizes.
      destruct (Forall2_lookup_r _ _ _ _ _ Hsizes Hi) as (u & Hu & Hfu).
      apply bind_Ok in Hfu as (du & Hdu & [= Hsize]).
      assert (u ∈ sel) as Hin.
      { apply (result_filter_elem_of _ _ _ u Hsel). split; [by eapply list_elem_of_lookup_2|].
        rewrite Hdu. simpl. by rewrite bool_decide_eq_true_2. }
      intros ->. by apply elem_of_nil in Hin. }
    case_decide.
    + destruct sel as [|s sel]; [done|]. simpl.
      set (m := foldl Nat.max (size (neighbors c s)) ((λ var, size (neighbors c var)) <$> sel)).
      pose proof (foldl_max_elem_of ((λ var, size (neighbors c var)) <$> sel)
                    (size (neighbors c s))) as Hmax.
      fold m in Hmax.
      change (size (neighbors c s) :: ((λ var, size (neighbors c var)) <$> sel))
        with ((λ var, size (neighbors c var)) <$> (s :: sel)) in Hmax.
      apply list_elem_of_fmap in Hmax as (w & Hw & Hin).
      assert (w ∈ filter (λ var, size (neighbors c var) = m) (s :: sel)) as Hfw
        by (by apply list_elem_of_filter).
      destruct (filter _ (s :: sel)) as [|w' ?]; [by apply elem_of_nil in Hfw|].
      by eexists.
    + simpl. destruct sel as [|s sel]; [done|]. by eexists.
Qed.

(** X13. The list returned by [order_domain_values] is in descending order
    of the counters [ruled_out_values]: each value rules out at least as
    many values for the unassigned neighbours as the value after it. *)
Theorem order_domain_values_is_descending var A D values :
  order_domain_values c var A D = Ok values →
  ∃ counters,
    result_map (ruled_out c var A D) values = Ok counters ∧
    Sorted (λ n m, m ≤ n) counters.
Proof. apply order_domain_values_descending. Qed.

End Choices.

(* ===================================================================== *)
(** ** Further properties: the search *)
(* ===================================================================== *)

Section SearchProperties.

Context (c : Crossword).

Implicit Types rec : Assignment → Domains → Outcome.
Implicit Types s : variable → string.

Lemma elem_of_dict_set k v (d : Assignment) x w :
  (x, w) ∈ dict_set k v d → (x, w) = (k, v) ∨ (x, w) ∈ d.
Proof.
  induction d as [|[k' v'] d IH]; simpl.
  - intros H. apply list_elem_of_singleton in H. by left.
  - case_decide.
    + intros Hin. apply elem_of_cons in Hin as [?|?]; [by left | right; by right].
    + intros Hin. apply elem_of_cons in Hin as [->|Hin]; [right; left|].
      destruct (IH Hin) as [?|?]; [by left | right; by right].
Qed.

(** *** Propagation keeps the solutions *)

Lemma revise_admits x y D res D' s :
  solution c s → admits c D s →
  x ∈ variables c → y ∈ variables c → x ≠ y →
  revise c x y D = (Ok res, D') → admits c D' s.
Proof.
  intros Hsol Hadm Hx Hy Hne Hrev.
  apply revise_Ok in Hrev
    as [(_ & _ & ->)|(ix & iy & dx & tmp & Hov & Hdx & -> & Htmp & _ & Hall)]; [done|].
  intros z Hz. rewrite lookup_insert. case_decide as Hxz; [|by apply Hadm].
  subst z. exists tmp. split; [done|].
  destruct (Hadm x Hx) as (dx' & Hdx' & Hsx). simplify_eq.
  destruct (Hadm y Hy) as (dy & Hdy & Hsy).
  apply Htmp. split; [done|].
  destruct (Hall _ Hsx) as [?|Hun]; [done|]. exfalso.
  eapply unsupported_agree; [done..|]. by eapply solution_overlap.
Qed.

Lemma enqueue_proper x y ns arcs :
  structure_ok c → x ∈ variables c → (∀ n, n ∈ ns → n ∈ neighbors c x) →
  proper_arcs c arcs → proper_arcs c (enqueue x y ns arcs).
Proof.
  intros Hok Hx. revert arcs. induction ns as [|n ns IH]; intros arcs Hns Harcs; simpl.
  { done. }
  assert (∀ n', n' ∈ ns → n' ∈ neighbors c x) as Hns' by (intros n' ?; apply Hns; by right).
  case_decide; [|by apply IH]. apply IH; [done|].
  intros a b Hab. apply elem_of_app in Hab as [Hab|Hab]; [by apply Harcs|].
  apply list_elem_of_singleton in Hab as [= -> ->].
  assert (n ∈ neighbors c x) as Hn by (apply Hns; left).
  apply (neighbors_spec c Hok) in Hn as (? & ? & _). done.
Qed.

Lemma ac3_loop_admits fuel arcs D b D' s :
  structure_ok c → solution c s → proper_arcs c arcs → admits c D s →
  ac3_loop c fuel arcs D = Some (Ok b, D') → admits c D' s ∧ b = true.
Proof.
  intros Hok Hsol. revert arcs D.
  induction fuel as [|fuel IH]; intros arcs D Harcs Hadm; simpl; [done|].
  destruct arcs as [|[x y] arcs]; [by intros [= <- <-]|].
  destruct (Harcs x y) as (Hx & Hy & Hne); [left|].
  assert (proper_arcs c arcs) as Harcs' by (intros a b' ?; apply Harcs; by right).
  destruct (revise c x y D) as [[[]|] D1] eqn:Hrev; [| |done].
  - pose proof (revise_admits _ _ _ _ _ _ Hsol Hadm Hx Hy Hne Hrev) as Hadm1.
    destruct (Hadm1 x Hx) as (dx & Hdx & Hsx). unfold dom_get. rewrite Hdx.
    case_decide as Hsize.
    { apply size_empty_inv in Hsize. set_solver. }
    apply IH; [|done]. apply enqueue_proper; [done..| |done].
    intros n. by rewrite elem_of_elements.
  - pose proof (revise_admits _ _ _ _ _ _ Hsol Hadm Hx Hy Hne Hrev) as Hadm1.
    by apply IH.
Qed.

Lemma all_arcs_proper : proper_arcs c (all_arcs c).
Proof. intros x y. by rewrite all_arcs_elem_of. Qed.

Lemma assigned_arcs_proper A :
  structure_ok c → keys A ⊆ variables c → proper_arcs c (assigned_arcs c A).
Proof.
  intros Hok HA x y Hxy. unfold assigned_arcs in Hxy.
  apply list_elem_of_bind in Hxy as (v & Hxy & Hv).
  apply list_elem_of_bind in Hxy as (n & Hxy & Hn).
  apply list_elem_of_singleton in Hxy as [= -> ->].
  apply elem_of_elements, (neighbors_spec c Hok) in Hn as (? & ? & _).
  split; [done|]. split; [|done]. apply HA. unfold keys. by apply elem_of_list_to_set.
Qed.

(** X14. [ac3] never removes a word that takes part in a solution: on a
    crossword whose [neighbors] are the variables with a defined overlap,
    started on arcs between distinct variables (as the default list is), a
    run that returns leaves in the domains every solution they held, and it
    returns [True]. *)
Theorem ac3_keeps_solutions arcs D b D' s :
  structure_ok c → solution c s → admits c D s →
  (∀ l, arcs = Some l → proper_arcs c l) →
  ac3 c arcs D = Some (Ok b, D') → admits c D' s ∧ b = true.
Proof.
  intros Hok Hsol Hadm Harcs. unfold ac3. apply ac3_loop_admits; try done.
  destruct arcs as [l|]; [by apply Harcs | apply all_arcs_proper].
Qed.

(** *** The search is exhaustive *)

Lemma extends_keys A s : extends c A s → keys A ⊆ variables c.
Proof.
  intros [_ HA] x Hx. unfold keys in Hx. apply elem_of_list_to_set in Hx.
  apply list_elem_of_fmap in Hx as ([x' w] & -> & Hin). by apply HA in Hin as [? _].
Qed.

Lemma extends_dict_set A s var :
  extends c A s → var ∈ variables c → extends c (dict_set var (s var) A) s.
Proof.
  intros [Hnd HA] Hvar. split; [by apply dict_set_NoDup|].
  intros x w Hin. apply elem_of_dict_set in Hin as [[= -> ->]|Hin]; [done | by apply HA].
Qed.

Lemma extends_values A s : extends c A s → A.*2 = s <$> A.*1.
Proof.
  intros [_ HA]. induction A as [|[x w] A IH]; [done|]. csimpl.
  destruct (HA x w) as [_ ->]; [left|]. f_equal. apply IH.
  intros x' w' Hin. apply HA. by right.
Qed.

Lemma extends_valid A s : solution c s → extends c A s → valid_assignment c A.
Proof.
  intros Hsol Hext. pose proof (extends_keys _ _ Hext) as Hkeys.
  pose proof (extends_values _ _ Hext) as Hvalues. destruct Hext as [Hnd HA].
  split.
  - rewrite Hvalues. apply NoDup_fmap_2_strong; [|done].
    intros x y Hx Hy Heq. apply (solution_distinct c s Hsol); [| |done].
    + apply Hkeys. unfold keys. by apply elem_of_list_to_set.
    + apply Hkeys. unfold keys. by apply elem_of_list_to_set.
  - intros x wx Hin. apply HA in Hin as [Hx <-]. by apply (solution_length c s Hsol).
  - intros x wx y wy i j Hx Hy Hne Hov.
    apply HA in Hx as [Hx <-]. apply HA in Hy as [Hy <-].
    by apply (solution_overlap c s Hsol).
Qed.

Lemma try_value_exhaustive rec var A A0 D st s :
  structure_ok c → exhaustive c rec → solution c s → extends c A s → admits c D s →
  var ∈ variables c →
  dict_set var (s var) A0 = dict_set var (s var) A →
  try_value c rec var (s var) A0 D = Some (Ok None, st) → False.
Proof.
  intros Hok Hrec Hsol Hext Hadm Hvar HA0. unfold try_value. rewrite HA0.
  pose proof (extends_dict_set _ _ _ Hext Hvar) as Hext1.
  rewrite (valid_assignment_consistent c _ (extends_valid _ _ Hsol Hext1)).
  destruct (ac3 c _ _) as [[[b|] D2]|] eqn:Hac; [|done..].
  apply ac3_loop_admits with (s := s) in Hac as [Hadm2 _]; try done.
  - destruct (rec _ D2) as [[[[res|]|] [A2 D3]]|] eqn:Hr; try done.
    intros _. by eapply Hrec.
  - apply assigned_arcs_proper; [done|]. by eapply extends_keys.
  - intros x Hx. rewrite lookup_insert. case_decide; [|by apply Hadm].
    subst x. exists {[s var]}. split; [done | set_solver].
Qed.

Lemma try_values_exhaustive rec var values A A0 D st s :
  structure_ok c → restoring rec → exhaustive c rec →
  solution c s → extends c A s → admits c D s → var ∈ variables c →
  (∀ v, dict_set var v A0 = dict_set var v A) →
  s var ∈ values →
  try_values c rec var values A0 D = Some (Ok None, st) → False.
Proof.
  intros Hok Hres Hrec Hsol Hext Hadm Hvar. revert A0.
  induction values as [|value values IH]; intros A0 HA0 Hin; simpl.
  { by apply elem_of_nil in Hin. }
  destruct (try_value c rec var value A0 D) as [[[[res|]|] [A1 D1]]|] eqn:Hv; try done.
  destruct (decide (value = s var)) as [->|Hne].
  { intros _.
    exact (try_value_exhaustive rec var A A0 D _ s Hok Hrec Hsol Hext Hadm Hvar (HA0 _) Hv). }
  apply elem_of_cons in Hin as [?|Hin]; [done|].
  pose proof (try_value_None_domains c _ _ _ _ _ _ _ Hv) as ->.
  apply try_value_None_assignment in Hv as ->; [|done].
  apply IH; [|done]. intros v. by rewrite dict_set_set.
Qed.

Lemma backtrack_body_exhaustive rec :
  structure_ok c → restoring rec → exhaustive c rec →
  exhaustive c (backtrack_body c rec).
Proof.
  intros Hok Hres Hrec A D st s Hrun Hsol Hext Hadm. unfold backtrack_body in Hrun.
  destruct (assignment_complete c A); [done|].
  destruct (select_unassigned_variable c A D) as [var|] eqn:Hsel; [|done].
  apply select_unassigned_variable_unassigned in Hsel as [Hvar Hfresh].
  destruct (order_domain_values c var A D) as [values|] eqn:Hvalues; [|done].
  apply order_domain_values_Permutation in Hvalues as (dv & Hdv & Hperm).
  destruct (try_values c rec var values A D) as [[[[res|]|] [A1 D1]]|] eqn:Hloop;
    try done.
  eapply try_values_exhaustive; try done.
  destruct (Hadm var Hvar) as (dv' & Hdv' & Hs). simplify_eq.
  rewrite Hperm. by apply elem_of_elements.
Qed.

Lemma backtrack_exhaustive fuel : structure_ok c → exhaustive c (backtrack c fuel).
Proof.
  intros Hok. induction fuel as [|fuel IH]; [by intros A D st s [=]|].
  apply backtrack_body_exhaustive; [done | apply backtrack_restoring | done].
Qed.

Lemma enforce_node_consistency_admits D1 s :
  solution c s → enforce_node_consistency c (init_domains c) = (Ok (), D1) →
  admits c D1 s.
Proof.
  intros Hsol Hrun x Hx.
  destruct (enforce_node_consistency_init c) as (D1' & Hrun' & HD1).
  rewrite Hrun in Hrun'. injection Hrun' as <-.
  rewrite HD1, decide_True by done. eexists. split; [done|].
  apply elem_of_filter. split; [by apply (solution_length c s Hsol) | by apply (solution_words c s Hsol)].
Qed.

(** X15. The search is exhaustive: on a crossword whose [neighbors] are the
    variables with a defined overlap, [solve] returns [None] only when the
    crossword has no solution at all. *)
Theorem solve_None_no_solution st s :
  structure_ok c → solve c = Some (Ok None, st) → ¬ solution c s.
Proof.
  intros Hok Hrun Hsol. unfold solve in Hrun.
  destruct (enforce_node_consistency c (init_domains c)) as [[[]|e] D1] eqn:Hnode; [|done].
  pose proof (enforce_node_consistency_admits _ _ Hsol Hnode) as Hadm1.
  destruct (ac3 c None D1) as [[[b|e] D2]|] eqn:Hac; [|done..].
  apply ac3_loop_admits with (s := s) in Hac as [Hadm2 _];
    [|done..|apply all_arcs_proper|done].
  eapply backtrack_exhaustive; [done..| |done].
  split; [constructor|]. intros x w Hin. by apply elem_of_nil in Hin.
Qed.

(** X16. The same holds of every call of [backtrack]: when it returns
    [None], no solution of the crossword both extends the assignment it was
    given and takes all its words from the domains it was given; and it
    hands back that assignment and those domains as they were. *)
Theorem backtrack_None_exhausted fuel A D A' D' s :
  structure_ok c → backtrack c fuel A D = Some (Ok None, (A', D')) →
  A' = A ∧ D' = D ∧ ¬ (solution c s ∧ extends c A s ∧ admits c D s).
Proof.
  intros Hok Hrun. pose proof (backtrack_restoring c fuel _ _ _ _ Hrun) as [-> ->].
  split; [done|]. split; [done|]. intros (Hsol & Hext & Hadm).
  by eapply backtrack_exhaustive.
Qed.

(** *** The shape of a returned assignment *)

Lemma well_formed_dict_set A var value :
  well_formed c A → var ∈ variables c → value ∈ words c →
  well_formed c (dict_set var value A).
Proof.
  intros [Hnd HA] Hvar Hvalue. split; [by apply dict_set_NoDup|].
  intros x w Hin. apply elem_of_dict_set in Hin as [[= -> ->]|Hin]; [done | by apply HA].
Qed.

Lemma shrinks_init_words D x dx w :
  shrinks D (init_domains c) → D !! x = Some dx → w ∈ dx → w ∈ words c.
Proof.
  intros Hsh Hdx Hw. destruct (Hsh _ _ Hdx) as (d0 & Hd0 & Hsub).
  apply lookup_gset_to_gmap_Some in Hd0 as [_ <-]. by apply Hsub.
Qed.

Lemma try_value_well_forming rec var value A A0 D dv res st :
  well_forming c rec → well_formed c A → shrinks D (init_domains c) →
  var ∈ variables c → D !! var = Some dv → value ∈ dv →
  dict_set var value A0 = dict_set var value A →
  try_value c rec var value A0 D = Some (Ok (Some res), st) → well_formed c res.
Proof.
  intros Hrec HA HD Hvar Hdv Hvalue HA0. unfold try_value. rewrite HA0.
  destruct (consistent c (dict_set var value A)) as [[]|]; [|done..].
  destruct (ac3 c _ _) as [[[b|] D2]|] eqn:Hac; [|done..].
  destruct (rec _ D2) as [[[[res'|]|] [A2 D3]]|] eqn:Hr; try done.
  intros [= <- <-]. eapply Hrec; [done| |].
  - apply well_formed_dict_set; [done..|]. by eapply shrinks_init_words.
  - eapply shrinks_trans; [by eapply ac3_shrinks|].
    eapply shrinks_trans; [|done]. eapply shrinks_insert; [done | set_solver].
Qed.

Lemma try_values_well_forming rec var values A A0 D dv res st :
  restoring rec → well_forming c rec → well_formed c A → shrinks D (init_domains c) →
  var ∈ variables c → D !! var = Some dv → (∀ v, v ∈ values → v ∈ dv) →
  (∀ v, dict_set var v A0 = dict_set var v A) →
  try_values c rec var values A0 D = Some (Ok (Some res), st) → well_formed c res.
Proof.
  intros Hres Hrec HA HD Hvar Hdv. revert A0.
  induction values as [|value values IH]; intros A0 Hvalues HA0; simpl; [done|].
  destruct (try_value c rec var value A0 D) as [[[[res'|]|] [A1 D1]]|] eqn:Hv; try done.
  - intros [= <- <-].
    eapply (try_value_well_forming rec var value A A0); try done. apply Hvalues. left.
  - pose proof (try_value_None_domains c _ _ _ _ _ _ _ Hv) as ->.
    apply try_value_None_assignment in Hv as ->; [|done].
    apply IH; [intros v ?; apply Hvalues; by right|].
    intros v. by rewrite dict_set_set.
Qed.

Lemma backtrack_body_well_forming rec :
  restoring rec → well_forming c rec → well_forming c (backtrack_body c rec).
Proof.
  intros Hres Hrec A D res st Hrun HA HD. unfold backtrack_body in Hrun.
  destruct (assignment_complete c A); [by injection Hrun as <- <-|].
  destruct (select_unassigned_variable c A D) as [var|] eqn:Hsel; [|done].
  apply select_unassigned_variable_unassigned in Hsel as [Hvar Hfresh].
  destruct (order_domain_values c var A D) as [values|] eqn:Hvalues; [|done].
  apply order_domain_values_Permutation in Hvalues as (dv & Hdv & Hperm).
  destruct (try_values c rec var values A D) as [[[[res'|]|] [A1 D1]]|] eqn:Hloop;
    try done.
  - injection Hrun as <- <-.
    eapply (try_values_well_forming rec var values A A); try done.
    intros v. rewrite Hperm. apply elem_of_elements.
  - by destruct (dict_del var A1).
Qed.

Lemma backtrack_well_forming fuel : well_forming c (backtrack c fuel).
Proof.
  induction fuel as [|fuel IH]; [by intros A D res st [=]|].
  apply backtrack_body_well_forming; [apply backtrack_restoring | done].
Qed.

(** X17. An assignment returned by [solve] binds exactly the variables of
    the crossword, each once, and every word it uses is a word of the
    vocabulary. *)
Theorem solve_result_well_formed res st :
  solve c = Some (Ok (Some res), st) →
  NoDup res.*1 ∧ keys res = variables c ∧ ∀ x w, (x, w) ∈ res → w ∈ words c.
Proof.
  intros Hrun.
  assert (complete c res) as Hcomplete.
  { revert Hrun. unfold solve.
    destruct (enforce_node_consistency c (init_domains c)) as [[[]|e] D1]; [|done].
    destruct (ac3 c None D1) as [[[b|e] D2]|]; [|done..].
    intros H. by pose proof (backtrack_sound c _ _ _ _ _ H (consistent_nil c)) as [? _]. }
  assert (well_formed c res) as [Hnd Hres].
  { revert Hrun. unfold solve.
    destruct (enforce_node_consistency c (init_domains c)) as [[[]|e] D1] eqn:Hnode; [|done].
    destruct (ac3 c None D1) as [[[b|e] D2]|] eqn:Hac; [|done..].
    intros H. eapply backtrack_well_forming; [done| |].
    - split; [constructor|]. intros x w Hin. by apply elem_of_nil in Hin.
    - eapply shrinks_trans; [by eapply ac3_shrinks|].
      pose proof (enforce_node_consistency_loop_shrinks
                    (elements (variables c)) (init_domains c)) as Hsh.
      unfold enforce_node_consistency in Hnode. by rewrite Hnode in Hsh. }
  split; [done|]. split; [|intros x w Hin; by apply Hres in Hin as [_ ?]].
  apply set_eq. intros x. split.
  - intros Hx. unfold keys in Hx. apply elem_of_list_to_set in Hx.
    apply list_elem_of_fmap in Hx as ([x' w] & -> & Hin). by apply Hres in Hin as [? _].
  - intros Hx. by apply dict_get_is_Some, Hcomplete.
Qed.

(** *** A returned assignment extends the given one *)

Lemma try_value_extending rec var value A A0 D res st :
  extending c rec → var ∉ keys A →
  dict_set var value A0 = dict_set var value A →
  try_value c rec var value A0 D = Some (Ok (Some res), st) →
  st.1 = res ∧ A `prefix_of` res ∧ complete c res.
Proof.
  intros Hrec Hfresh HA0. unfold try_value. rewrite HA0.
  destruct (consistent c (dict_set var value A)) as [[]|]; [|done..].
  destruct (ac3 c _ _) as [[[b|] D2]|] eqn:Hac; [|done..].
  destruct (rec _ D2) as [[[[res'|]|] [A2 D3]]|] eqn:Hr; try done.
  intros [= <- <-]. apply Hrec in Hr as (Hst & Hpre & Hcomplete).
  split; [done|]. split; [|done].
  etransitivity; [|done]. rewrite dict_set_fresh by done. by apply prefix_app_r.
Qed.

Lemma try_values_extending rec var values A A0 D res st :
  restoring rec → extending c rec → var ∉ keys A →
  (∀ v, dict_set var v A0 = dict_set var v A) →
  try_values c rec var values A0 D = Some (Ok (Some res), st) →
  st.1 = res ∧ A `prefix_of` res ∧ complete c res.
Proof.
  intros Hres Hrec Hfresh. revert A0 D.
  induction values as [|value values IH]; intros A0 D HA0; simpl; [done|].
  destruct (try_value c rec var value A0 D) as [[[[res'|]|] [A1 D1]]|] eqn:Hv; try done.
  - intros [= <- <-]. by eapply (try_value_extending rec var value A A0).
  - apply try_value_None_assignment in Hv as ->; [|done].
    apply IH. intros v. by rewrite dict_set_set.
Qed.

Lemma backtrack_body_extending rec :
  restoring rec → extending c rec → extending c (backtrack_body c rec).
Proof.
  intros Hres Hrec A D res st. unfold backtrack_body.
  destruct (assignment_complete c A) eqn:Hc.
  { intros [= <- <-]. split; [done|]. split; [done|]. by apply assignment_complete_spec. }
  destruct (select_unassigned_variable c A D) as [var|] eqn:Hsel; [|done].
  apply select_unassigned_variable_unassigned in Hsel as [Hvar Hfresh].
  destruct (order_domain_values c var A D) as [values|]; [|done].
  destruct (try_values c rec var values A D) as [[[[res'|]|] [A1 D1]]|] eqn:Hloop;
    try done.
  - intros [= <- <-]. by eapply (try_values_extending rec var values A A).
  - by destruct (dict_del var A1).
Qed.

Lemma backtrack_extending fuel : extending c (backtrack c fuel).
Proof.
  induction fuel as [|fuel IH]; [by intros A D res st [=]|].
  apply backtrack_body_extending; [apply backtrack_restoring | done].
Qed.

(** X20. An assignment returned by [backtrack] is the dict it was given,
    completed: the bindings it had are still there, unchanged and in front,
    the variables bound by the search come after them, and every variable
    of the crossword is bound. *)
Theorem backtrack_returns_extension fuel A D res st :
  backtrack c fuel A D = Some (Ok (Some res), st) →
  st.1 = res ∧ A `prefix_of` res ∧ complete c res.
Proof. apply backtrack_extending. Qed.

(** *** The depth of the recursion *)

Lemma try_value_below rec rec' var value A D r :
  below rec rec' →
  try_value c rec var value A D = Some r → try_value c rec' var value A D = Some r.
Proof.
  intros Hrec. unfold try_value.
  destruct (consistent c (dict_set var value A)) as [[]|]; [|done..].
  destruct (ac3 c _ _) as [[[b|] D2]|]; [|done..].
  destruct (rec _ D2) as [r'|] eqn:Hr; [|by destruct r].
  by rewrite (Hrec _ _ _ Hr).
Qed.

Lemma try_values_below rec rec' var values A D r :
  below rec rec' →
  try_values c rec var values A D = Some r → try_values c rec' var values A D = Some r.
Proof.
  intros Hrec. revert A D. induction values as [|value values IH]; intros A D; simpl; [done|].
  destruct (try_value c rec var value A D) as [r'|] eqn:Hv; [|done].
  rewrite (try_value_below _ _ _ _ _ _ _ Hrec Hv).
  destruct r' as [[[res|]|e] [A1 D1]]; try done. apply IH.
Qed.

Lemma backtrack_body_below rec rec' :
  below rec rec' → below (backtrack_body c rec) (backtrack_body c rec').
Proof.
  intros Hrec A D r. unfold backtrack_body.
  destruct (assignment_complete c A); [done|].
  destruct (select_unassigned_variable c A D) as [var|]; [|done].
  destruct (order_domain_values c var A D) as [values|]; [|done].
  destruct (try_values c rec var values A D) as [r'|] eqn:Hloop; [|done].
  by rewrite (try_values_below _ _ _ _ _ _ _ Hrec Hloop).
Qed.

Lemma backtrack_below fuel k : below (backtrack c fuel) (backtrack c (fuel + k)).
Proof.
  induction fuel as [|fuel IH]; [by intros A D r [=]|].
  by apply backtrack_body_below.
Qed.

(** X18. The recursion of [backtrack] is never deeper than the number of
    unbound variables plus one: unfolded that deep it returns, a result or
    an exception, and unfolding it deeper changes nothing. With the loop
    of [ac3] bounded as well, [solve] always comes back. *)
Theorem backtrack_depth_bounded A D :
  (∃ r, backtrack c (backtrack_fuel c A) A D = Some r ∧
     ∀ fuel, backtrack_fuel c A ≤ fuel → backtrack c fuel A D = Some r) ∧
  is_Some (solve c).
Proof.
  split; [|apply solve_terminates].
  destruct (backtrack_terminates c (backtrack_fuel c A) A D) as [r Hr].
  { unfold backtrack_fuel. lia. }
  exists r. split; [done|]. intros fuel Hfuel.
  replace fuel with (backtrack_fuel c A + (fuel - backtrack_fuel c A)) by lia.
  by apply backtrack_below.
Qed.

(** X19. When the vocabulary has no word of the length of some variable,
    [solve] does not return [None]: it raises an exception. *)
Theorem solve_raises_without_word_of_length v :
  v ∈ variables c →
  (∀ w, w ∈ words c → String.length w ≠ length v) →
  ∃ e st, solve c = Some (Raise e, st).
Proof. apply solve_missing_length_raises. Qed.

End SearchProperties.

(* ===================================================================== *)
(** ** Further properties: the letter grid *)
(* ===================================================================== *)

Section LetterGrid.

Implicit Types letters g : Grid.

Lemma str_get_is_Some w k : is_Some (String.get k w) ↔ k < String.length w.
Proof.
  revert k. induction w as [|a w IH]; intros k; simpl.
  - split; [by intros [? ?] | lia].
  - destruct k as [|k]; simpl; [split; [lia | by eexists]|].
    rewrite IH. lia.
Qed.

Lemma cell_of_inj v k k' : cell_of v k = cell_of v k' → k = k'.
Proof.
  unfold cell_of. destruct (direction v); simpl; intros [=]; lia.
Qed.

Lemma written_Some item i j ch : written item i j = Some ch ↔ writes item i j ch.
Proof.
  unfold written, writes. split.
  - case_decide as Hk; [|done]. intros Hget. eauto.
  - intros (k & Hget & Hk).
    assert ((i - var_i item.1) + (j - var_j item.1) = k) as ->.
    { revert Hk. unfold cell_of. destruct (direction item.1); simpl; intros [=]; lia. }
    by rewrite decide_True.
Qed.

Lemma written_None item i j : written item i j = None ↔ ∀ ch, ¬ writes item i j ch.
Proof.
  split.
  - intros Hnone ch Hw. apply written_Some in Hw. congruence.
  - intros Hno. destruct (written item i j) as [ch|] eqn:Hw; [|done].
    apply written_Some in Hw. by destruct (Hno ch).
Qed.

(** *** One store *)

Lemma grid_set_Ok letters i j ch g :
  grid_set letters i j ch = Ok g ↔
  ∃ row, letters !! i = Some row ∧ j < List.length row ∧
    g = <[i := <[j := Some ch]> row]> letters.
Proof.
  unfold grid_set. destruct (letters !! i) as [row|]; [|split; [done | by intros (? & ? & _)]].
  case_decide.
  - split; [intros [= <-]; eauto | by intros (? & [= <-] & _ & ->)].
  - split; [done | intros (? & [= <-] & ? & _); lia].
Qed.

Lemma grid_set_Raise letters i j ch e : grid_set letters i j ch = Raise e → e = IndexError.
Proof.
  unfold grid_set. destruct (letters !! i) as [row|]; [|by intros [= <-]].
  case_decide; [done | by intros [= <-]].
Qed.

Lemma grid_set_shape height width letters i j ch g :
  grid_shape height width letters → grid_set letters i j ch = Ok g →
  i < height ∧ j < width ∧ grid_shape height width g.
Proof.
  intros [Hlen Hrows] Hset. apply grid_set_Ok in Hset as (row & Hrow & Hj & ->).
  pose proof (lookup_lt_Some _ _ _ Hrow) as Hi. pose proof (Hrows _ _ Hrow) as Hw.
  split; [lia|]. split; [lia|]. split; [by rewrite length_insert|].
  intros i' row'. rewrite list_lookup_insert. case_decide as Hc.
  - intros [= <-]. by rewrite length_insert.
  - apply Hrows.
Qed.

Lemma grid_set_in_range height width letters i j ch :
  grid_shape height width letters → i < height → j < width →
  ∃ g, grid_set letters i j ch = Ok g.
Proof.
  intros [Hlen Hrows] Hi Hj.
  destruct (lookup_lt_is_Some_2 letters i) as [row Hrow]; [lia|].
  exists (<[i := <[j := Some ch]> row]> letters). apply grid_set_Ok.
  exists row. split; [done|]. split; [|done]. rewrite (Hrows _ _ Hrow). lia.
Qed.

Lemma cell_grid_set letters i j ch g i' j' :
  grid_set letters i j ch = Ok g →
  cell g i' j' = if decide ((i, j) = (i', j')) then Some (Some ch) else cell letters i' j'.
Proof.
  intros Hset. apply grid_set_Ok in Hset as (row & Hrow & Hj & ->).
  pose proof (lookup_lt_Some _ _ _ Hrow) as Hi. unfold cell.
  destruct (decide (i = i')) as [<-|Hne].
  - rewrite list_lookup_insert_eq by done. rewrite Hrow. simpl.
    destruct (decide (j = j')) as [<-|Hne].
    + rewrite list_lookup_insert_eq by done. by rewrite decide_True.
    + rewrite list_lookup_insert_ne by done. rewrite decide_False; [done | congruence].
  - rewrite list_lookup_insert_ne by done. rewrite decide_False; [done | congruence].
Qed.

(** *** One word *)

Lemma letter_grid_word_Raise v word ks letters e :
  letter_grid_word v word ks letters = Raise e → e = IndexError.
Proof.
  revert letters. induction ks as [|k ks IH]; intros letters; simpl; [done|].
  set (i := var_i v + _). set (j := var_j v + _).
  unfold str_index. destruct (String.get k word) as [ch|]; simpl; [|by intros [= <-]].
  destruct (grid_set letters i j ch) as [g|e'] eqn:Hset; simpl.
  - apply IH.
  - intros [= <-]. by eapply grid_set_Raise.
Qed.

Lemma letter_grid_word_shape height width v word ks letters g :
  grid_shape height width letters → letter_grid_word v word ks letters = Ok g →
  grid_shape height width g ∧
  ∀ k, k ∈ ks → (cell_of v k).1 < height ∧ (cell_of v k).2 < width.
Proof.
  revert letters. induction ks as [|k ks IH]; intros letters Hshape; simpl.
  { intros [= <-]. split; [done|]. intros k Hk. by apply elem_of_nil in Hk. }
  set (i := var_i v + _). set (j := var_j v + _).
  assert (cell_of v k = (i, j)) as Hcell by done.
  destruct (str_index word k) as [ch|]; simpl; [|done].
  destruct (grid_set letters i j ch) as [g1|] eqn:Hset; simpl; [|done].
  destruct (grid_set_shape _ _ _ _ _ _ _ Hshape Hset) as (Hi & Hj & Hshape1).
  intros Hrest. destruct (IH _ Hshape1 Hrest) as [Hshape' Hks]. split; [done|].
  intros k' Hk'. apply elem_of_cons in Hk' as [->|Hk']; [exact (conj Hi Hj) | by apply Hks].
Qed.

Lemma letter_grid_word_in_range height width v word ks letters :
  grid_shape height width letters →
  (∀ k, k ∈ ks →
     k < String.length word ∧ (cell_of v k).1 < height ∧ (cell_of v k).2 < width) →
  ∃ g, letter_grid_word v word ks letters = Ok g.
Proof.
  revert letters. induction ks as [|k ks IH]; intros letters Hshape Hks; simpl.
  { by eexists. }
  destruct (Hks k) as (Hk & Hi & Hj); [left|].
  set (i := var_i v + _). set (j := var_j v + _).
  change (i < height) in Hi. change (j < width) in Hj.
  apply str_get_is_Some in Hk as [ch Hch]. unfold str_index. rewrite Hch. simpl.
  destruct (grid_set_in_range height width letters i j ch) as [g1 Hset]; [done..|].
  rewrite Hset. simpl. apply IH.
  - by eapply grid_set_shape.
  - intros k' Hk'. apply Hks. by right.
Qed.

Lemma letter_grid_word_untouched v word ks letters g i j :
  letter_grid_word v word ks letters = Ok g →
  (∀ k, k ∈ ks → cell_of v k ≠ (i, j)) →
  cell g i j = cell letters i j.
Proof.
  revert letters. induction ks as [|k ks IH]; intros letters; simpl.
  { by intros [= <-]. }
  set (i0 := var_i v + _). set (j0 := var_j v + _).
  assert (cell_of v k = (i0, j0)) as Hcell by done.
  destruct (str_index word k) as [ch|]; simpl; [|done].
  destruct (grid_set letters i0 j0 ch) as [g1|] eqn:Hset; simpl; [|done].
  intros Hrest Hks. rewrite (IH _ Hrest) by (intros k' ?; apply Hks; by right).
  rewrite (cell_grid_set _ _ _ _ _ i j Hset). rewrite decide_False; [done|].
  rewrite <- Hcell. apply Hks. left.
Qed.

Lemma letter_grid_word_written v word ks letters g i j k :
  letter_grid_word v word ks letters = Ok g →
  k ∈ ks → cell_of v k = (i, j) →
  ∃ ch, String.get k word = Some ch ∧ cell g i j = Some (Some ch).
Proof.
  revert letters. induction ks as [|k0 ks IH]; intros letters; simpl.
  { intros _ Hk. by apply elem_of_nil in Hk. }
  set (i0 := var_i v + _). set (j0 := var_j v + _).
  assert (cell_of v k0 = (i0, j0)) as Hcell by done.
  destruct (str_index word k0) as [ch|] eqn:Hch; simpl; [|done].
  destruct (grid_set letters i0 j0 ch) as [g1|] eqn:Hset; simpl; [|done].
  intros Hrest Hk Hk_cell.
  destruct (decide (k ∈ ks)) as [Hin|Hout]; [by eapply IH|].
  apply elem_of_cons in Hk as [->|?]; [|done].
  exists ch. split; [by apply str_index_Ok|].
  rewrite (letter_grid_word_untouched _ _ _ _ _ i j Hrest).
  - rewrite (cell_grid_set _ _ _ _ _ i j Hset). rewrite decide_True; [done | congruence].
  - intros k' Hk' Heq. rewrite <- Hk_cell in Heq. apply cell_of_inj in Heq. by subst.
Qed.

Lemma letter_grid_word_cell item letters g i j :
  letter_grid_word item.1 item.2 (seq 0 (String.length item.2)) letters = Ok g →
  cell g i j =
    match written item i j with
    | Some ch => Some (Some ch)
    | None => cell letters i j
    end.
Proof.
  intros Hrun. destruct (written item i j) as [ch|] eqn:Hw.
  - apply written_Some in Hw as (k & Hget & Hk).
    destruct (letter_grid_word_written _ _ _ _ _ i j k Hrun) as (ch' & Hget' & Hcell);
      [|done|congruence].
    apply elem_of_seq. split; [lia|]. simpl. apply str_get_is_Some. by eexists.
  - eapply letter_grid_word_untouched; [done|].
    intros k Hk Hcell. apply elem_of_seq in Hk as [_ Hk]. simpl in Hk.
    apply str_get_is_Some in Hk as [ch Hch].
    pose proof (proj1 (written_None item i j) Hw ch) as Hno. apply Hno. by exists k.
Qed.

(** *** The whole assignment *)

Lemma letter_grid_items_Raise A letters e :
  letter_grid_items A letters = Raise e → e = IndexError.
Proof.
  revert letters. induction A as [|[v word] A IH]; intros letters; simpl; [done|].
  destruct (letter_grid_word v word _ letters) as [g|e'] eqn:Hword; simpl.
  - apply IH.
  - intros [= <-]. by eapply letter_grid_word_Raise.
Qed.

Lemma letter_grid_items_shape height width A letters g :
  grid_shape height width letters → letter_grid_items A letters = Ok g →
  grid_shape height width g ∧ ∀ item, item ∈ A → fits height width item.
Proof.
  revert letters. induction A as [|[v word] A IH]; intros letters Hshape; simpl.
  { intros [= <-]. split; [done|]. intros item Hin. by apply elem_of_nil in Hin. }
  destruct (letter_grid_word v word _ letters) as [g1|] eqn:Hword; simpl; [|done].
  destruct (letter_grid_word_shape _ _ _ _ _ _ _ Hshape Hword) as [Hshape1 Hks].
  intros Hrest. destruct (IH _ Hshape1 Hrest) as [Hshape' Hfits]. split; [done|].
  intros item Hin. apply elem_of_cons in Hin as [->|Hin]; [|by apply Hfits].
  intros k Hk. apply Hks, elem_of_seq. simpl in *. lia.
Qed.

Lemma letter_grid_items_in_range height width A letters :
  grid_shape height width letters → (∀ item, item ∈ A → fits height width item) →
  ∃ g, letter_grid_items A letters = Ok g.
Proof.
  revert letters. induction A as [|[v word] A IH]; intros letters Hshape Hfits; simpl.
  { by eexists. }
  destruct (letter_grid_word_in_range height width v word
              (seq 0 (String.length word)) letters) as [g1 Hword]; [done| |].
  { intros k Hk. apply elem_of_seq in Hk as [_ Hk]. simpl in Hk. split; [done|].
    apply (Hfits (v, word)); [left | done]. }
  rewrite Hword. simpl. apply IH.
  - by eapply letter_grid_word_shape.
  - intros item Hin. apply Hfits. by right.
Qed.

Lemma letter_grid_items_untouched A letters g i j :
  letter_grid_items A letters = Ok g →
  (∀ item, item ∈ A → written item i j = None) →
  cell g i j = cell letters i j.
Proof.
  revert letters. induction A as [|[v word] A IH]; intros letters; simpl.
  { by intros [= <-]. }
  destruct (letter_grid_word v word _ letters) as [g1|] eqn:Hword; simpl; [|done].
  intros Hrest Hnone. rewrite (IH _ Hrest) by (intros item ?; apply Hnone; by right).
  rewrite (letter_grid_word_cell (v, word) _ _ i j Hword).
  rewrite (Hnone (v, word)); [done | left].
Qed.

Lemma letter_grid_items_last A1 item A2 letters g i j ch :
  letter_grid_items (A1 ++ item :: A2) letters = Ok g →
  written item i j = Some ch →
  (∀ item', item' ∈ A2 → written item' i j = None) →
  cell g i j = Some (Some ch).
Proof.
  revert letters. induction A1 as [|[v word] A1 IH]; intros letters; simpl.
  - destruct item as [v word].
    destruct (letter_grid_word v word _ letters) as [g1|] eqn:Hword; simpl; [|done].
    intros Hrest Hw Hnone. rewrite (letter_grid_items_untouched _ _ _ i j Hrest Hnone).
    rewrite (letter_grid_word_cell (v, word) _ _ i j Hword). by rewrite Hw.
  - destruct (letter_grid_word v word _ letters) as [g1|] eqn:Hword; simpl; [|done].
    apply IH.
Qed.

Lemma last_writer A i j :
  (∀ item, item ∈ A → written item i j = None) ∨
  ∃ A1 item A2 ch, A = A1 ++ item :: A2 ∧ written item i j = Some ch ∧
    ∀ item', item' ∈ A2 → written item' i j = None.
Proof.
  induction A as [|item A IH].
  { left. intros item Hin. by apply elem_of_nil in Hin. }
  destruct IH as [Hnone|(A1 & item' & A2 & ch & -> & Hw & Hlast)].
  - destruct (written item i j) as [ch|] eqn:Hw.
    + right. by exists [], item, A, ch.
    + left. intros item' Hin. apply elem_of_cons in Hin as [->|?]; [done | by apply Hnone].
  - right. by exists (item :: A1), item', A2, ch.
Qed.

(** X21. When [letter_grid] returns, the array has [height] rows of
    [width] cells each, whatever the assignment. *)
Theorem letter_grid_shape height width A g :
  letter_grid height width A = Ok g →
  List.length g = height ∧ ∀ row, row ∈ g → List.length row = width.
Proof.
  intros Hrun. unfold letter_grid in Hrun.
  apply (letter_grid_items_shape height width) in Hrun as [[Hlen Hrows] _].
  - split; [done|]. intros row Hrow. apply list_elem_of_lookup in Hrow as [i Hi]. eauto.
  - split; [apply length_replicate|]. intros i row Hrow.
    apply lookup_replicate in Hrow as [-> _]. apply length_replicate.
Qed.

(** X22. [letter_grid] returns exactly when every bound word lies within
    the grid, all its letters counted (the length of the word, not that of
    the variable, is what matters); when some letter falls outside, it
    raises [IndexError]. *)
Theorem letter_grid_exceptions height width A :
  ((∃ g, letter_grid height width A = Ok g) ↔
   ∀ item, item ∈ A → fits height width item) ∧
  (∀ e, letter_grid height width A = Raise e → e = IndexError).
Proof.
  assert (grid_shape height width (replicate height (replicate width None))) as Hshape.
  { split; [apply length_replicate|]. intros i row Hrow.
    apply lookup_replicate in Hrow as [-> _]. apply length_replicate. }
  unfold letter_grid. split; [split|].
  - intros [g Hrun]. by eapply letter_grid_items_shape.
  - by apply letter_grid_items_in_range.
  - intros e. apply letter_grid_items_Raise.
Qed.

(** X23. In the array returned by [letter_grid], a cell holds a letter
    exactly when some binding of the assignment writes to it, and the
    letter is that of the last such binding in the order of the dict; a
    cell within the grid that no binding writes to holds [None]. *)
Theorem letter_grid_cells height width A g i j :
  letter_grid height width A = Ok g →
  (∀ ch, cell g i j = Some (Some ch) ↔
     ∃ A1 item A2, A = A1 ++ item :: A2 ∧ writes item i j ch ∧
       ∀ item' ch', item' ∈ A2 → ¬ writes item' i j ch') ∧
  (cell g i j = Some None ↔
     i < height ∧ j < width ∧ ∀ item ch, item ∈ A → ¬ writes item i j ch).
Proof.
  intros Hrun. unfold letter_grid in Hrun.
  assert (cell (replicate height (replicate width None)) i j =
          if decide (i < height ∧ j < width) then Some None else None) as Hblank.
  { unfold cell. case_decide as Hin.
    - destruct Hin. rewrite lookup_replicate_2 by done. simpl.
      by rewrite lookup_replicate_2.
    - destruct (replicate height _ !! i) as [row|] eqn:Hrow; [|done]. simpl.
      apply lookup_replicate in Hrow as [-> Hi].
      destruct (replicate width _ !! j) as [x|] eqn:Hx; [|done].
      apply lookup_replicate in Hx as [_ Hj]. by destruct Hin. }
  destruct (last_writer A i j) as [Hnone|(A1 & item & A2 & ch0 & -> & Hw & Hlast)].
  - rewrite (letter_grid_items_untouched _ _ _ i j Hrun Hnone), Hblank. split.
    + intros ch. split; [by case_decide|].
      intros (A1 & item & A2 & -> & Hw & _). apply written_Some in Hw.
      rewrite Hnone in Hw; [done|]. apply elem_of_app. right. left.
    + split.
      * case_decide as Hin; [|done]. intros _. destruct Hin. split; [done|]. split; [done|].
        intros item ch Hin. by apply written_None, Hnone.
      * intros (? & ? & _). by rewrite decide_True.
  - rewrite (letter_grid_items_last _ _ _ _ _ i j ch0 Hrun Hw Hlast). split.
    + intros ch. split.
      * intros [= <-]. exists A1, item, A2. split; [done|].
        split; [by apply written_Some|]. intros item' ch' Hin. by apply written_None, Hlast.
      * intros (B1 & item' & B2 & Heq & Hw' & Hlast'). f_equal. f_equal.
        apply written_Some in Hw'.
        assert (∀ x, x ∈ B2 → written x i j = None) as Hlast''.
        { intros x Hx. apply written_None. intros ch'. by apply Hlast'. }
        clear Hrun Hlast'. revert B1 Heq.
        induction A1 as [|a A1 IH]; intros B1 Heq.
        -- destruct B1 as [|b B1]; simpl in Heq.
           ++ injection Heq as -> _. congruence.
           ++ injection Heq as -> ->. rewrite Hlast in Hw'; [done|].
              apply elem_of_app. right. left.
        -- destruct B1 as [|b B1]; simpl in Heq.
           ++ injection Heq as <- <-. rewrite Hlast'' in Hw; [done|].
              apply elem_of_app. right. left.
           ++ injection Heq as _ Heq. by eapply IH.
    + split; [done|]. intros (_ & _ & Hno). apply written_Some in Hw.
      destruct (Hno item ch0); [|done]. apply elem_of_app. right. left.
Qed.

End LetterGrid.

(* ===================================================================== *)
(** ** Concrete runs of the further properties *)
(* ===================================================================== *)

(** [cat_tar] and [twins] are structures as the collaborator supplies
    them. *)
Lemma cat_tar_structure_ok : structure_ok cat_tar.
Proof.
  split.
  - intros x v. unfold cat_tar, crossword_of. cbn [neighbors variables overlaps].
    rewrite elem_of_filter. naive_solver.
  - intros x y i j H. unfold cat_tar, crossword_of, table_overlaps in *.
    cbn [overlaps] in *. apply elem_of_list_to_map_2 in H.
    repeat (apply elem_of_cons in H as [H|H]; [by simplify_eq|]).
    by apply elem_of_nil in H.
Qed.

Lemma twins_structure_ok : structure_ok twins.
Proof.
  split.
  - intros x v. unfold twins, crossword_of. cbn [neighbors variables overlaps].
    rewrite elem_of_filter. naive_solver.
  - intros x y i j H. unfold twins, crossword_of, table_overlaps in *.
    cbn [overlaps] in *. by apply elem_of_list_to_map_2, elem_of_nil in H.
Qed.

Lemma cat_tar_variables x : x ∈ variables cat_tar → x = row3 ∨ x = col3.
Proof.
  unfold cat_tar, crossword_of. cbn [variables]. intros Hx.
  apply elem_of_list_to_set in Hx.
  repeat (apply elem_of_cons in Hx as [Hx|Hx]; [by auto|]). by apply elem_of_nil in Hx.
Qed.

Lemma ring_variables x :
  x ∈ variables ring → x = top ∨ x = left ∨ x = right ∨ x = mid.
Proof.
  unfold ring, crossword_of. cbn [variables]. intros Hx.
  apply elem_of_list_to_set in Hx.
  repeat (apply elem_of_cons in Hx as [Hx|Hx]; [by auto|]). by apply elem_of_nil in Hx.
Qed.

(** CAT across and TAR down solve [cat_tar]. *)
Lemma cat_tar_solution :
  solution cat_tar (λ x, if decide (x = row3) then "CAT" else "TAR").
Proof.
  split.
  - intros x Hx. apply cat_tar_variables in Hx as [->| ->]; vm_compute; reflexivity.
  - intros x Hx. by apply cat_tar_variables in Hx as [->| ->].
  - intros x y Hx Hy.
    apply cat_tar_variables in Hx as [->| ->]; apply cat_tar_variables in Hy as [->| ->];
      done.
  - intros x y i j Hx Hy Hne.
    apply cat_tar_variables in Hx as [->| ->]; apply cat_tar_variables in Hy as [->| ->];
      try done; intros [= <- <-]; by exists "T"%char.
Qed.

Lemma cat_tar_admits :
  admits cat_tar (init_domains cat_tar) (λ x, if decide (x = row3) then "CAT" else "TAR").
Proof.
  intros x Hx. exists (words cat_tar).
  apply cat_tar_variables in Hx as [->| ->]; split; vm_compute; reflexivity.
Qed.

Lemma ring_domains_nonempty : nonempty_domains ring_domains.
Proof.
  intros v dv H. unfold ring_domains in H. apply elem_of_list_to_map_2 in H.
  repeat (apply elem_of_cons in H as [H|H];
          [injection H as -> ->; intros Heq; apply (f_equal size) in Heq;
           vm_compute in Heq; discriminate Heq|]).
  by apply elem_of_nil in H.
Qed.

Lemma enforce_node_consistency_filters_witness :
  (∃ D1, enforce_node_consistency ring (init_domains ring) = (Ok (), D1) ∧
     ∀ x, D1 !! x =
       if decide (x ∈ variables ring)
       then filter (λ value, length x = String.length value) <$> init_domains ring !! x
       else init_domains ring !! x) ∧
  (enforce_node_consistency ring ∅).1 = Raise KeyError.
Proof.
  split.
  - apply (proj1 (enforce_node_consistency_filters ring (init_domains ring))).
    intros v Hv. exists (words ring).
    apply ring_variables in Hv as [->|[->|[->| ->]]]; vm_compute; reflexivity.
  - apply (proj2 (enforce_node_consistency_filters ring ∅) top); vm_compute; reflexivity.
Defined.

Lemma enforce_node_consistency_idempotent_witness :
  enforce_node_consistency ring (enforce_node_consistency ring (init_domains ring)).2
    = (Ok (), (enforce_node_consistency ring (init_domains ring)).2).
Proof.
  apply (enforce_node_consistency_idempotent ring (init_domains ring)).
  vm_compute. reflexivity.
Defined.

(** On [ring] with [top] narrowed to BBB, revising [left] against [top]
    leaves BBDB, the only word of [left] that starts with B. *)
Lemma revise_keeps_supported_words_witness :
  ∃ dx', (revise ring left top (<[top := {["BBB"]}]> ring_domains)).2 !! left = Some dx' ∧
    (∀ w, w ∈ dx' ↔
       w ∈ ({["AACA"; "ABCA"; "BBDB"]} : gset string) ∧
       ∃ wy, wy ∈ ({["BBB"]} : gset string) ∧ agree w wy 0 0) ∧
    (true = true ↔ dx' ≠ {["AACA"; "ABCA"; "BBDB"]}).
Proof.
  apply (revise_keeps_supported_words ring left top (<[top := {["BBB"]}]> ring_domains)
           true _ 0 0 {["AACA"; "ABCA"; "BBDB"]} {["BBB"]});
    vm_compute; reflexivity.
Defined.

Lemma revise_exceptions_witness :
  revise ring left top (∅ : Domains) = (Raise KeyError, ∅) ∧
  ∃ res D', revise ring left top ring_domains = (Ok res, D').
Proof.
  split.
  - apply (proj1 (revise_exceptions ring left top ∅ 0 0 eq_refl)). reflexivity.
  - apply (proj2 (revise_exceptions ring left top ring_domains 0 0 eq_refl)
             {["AACA"; "ABCA"; "BBDB"]} {["AAA"; "BBB"]}).
    + vm_compute. reflexivity.
    + vm_compute. reflexivity.
    + intros w Hw. set_unfold. destruct_or!; subst; simpl; lia.
    + intros w Hw. set_unfold. destruct_or!; subst; simpl; lia.
Defined.

Lemma ac3_default_enforces_arc_consistency_witness :
  arc_consistent ring ring_domains top left.
Proof.
  apply (ac3_default_enforces_arc_consistency ring
           (enforce_node_consistency ring (init_domains ring)).2 ring_domains top left).
  - apply ring_structure_ok.
  - vm_compute. reflexivity.
  - vm_compute. reflexivity.
  - vm_compute. reflexivity.
  - discriminate.
Defined.

Lemma ac3_false_means_empty_domain_witness :
  ∃ x, ring_domains_BBB !! x = Some ∅.
Proof.
  apply (ac3_false_means_empty_domain ring (Some (assigned_arcs ring [(top, "BBB")]))
           (<[top := {["BBB"]}]> ring_domains) ring_domains_BBB).
  vm_compute. reflexivity.
Defined.

Lemma ac3_true_keeps_domains_nonempty_witness : nonempty_domains ring_domains.
Proof.
  apply (ac3_true_keeps_domains_nonempty ring None ring_domains ring_domains).
  - apply ring_domains_nonempty.
  - vm_compute. reflexivity.
Defined.

(** On [ring], [top] is selected: it has two words, the other slots
    three. *)
Lemma select_unassigned_variable_choice_witness :
  top ∈ variables ring ∧ (top ∉ keys []) ∧
  ∃ dv, ring_domains !! top = Some dv ∧
    ∀ u, u ∈ variables ring → u ∉ keys [] →
      ∃ du, ring_domains !! u = Some du ∧ size dv ≤ size du ∧
        (size du = size dv → size (neighbors ring u) ≤ size (neighbors ring top)).
Proof.
  apply (select_unassigned_variable_choice ring [] ring_domains top).
  vm_compute. reflexivity.
Defined.

Lemma select_unassigned_variable_exceptions_witness :
  select_unassigned_variable no_fit [(row3, "AB")] (init_domains no_fit)
    = Raise ValueError ∧
  ∃ var, select_unassigned_variable ring [] ring_domains = Ok var.
Proof.
  split.
  - apply (proj1 (select_unassigned_variable_exceptions no_fit [(row3, "AB")]
                    (init_domains no_fit))).
    apply (bool_decide_unpack _). vm_compute. exact I.
  - apply (proj2 (select_unassigned_variable_exceptions ring [] ring_domains) top).
    + vm_compute. reflexivity.
    + apply (bool_decide_unpack _). vm_compute. exact I.
    + intros u Hu _.
      apply ring_variables in Hu as [->|[->|[->| ->]]]; eexists; vm_compute; reflexivity.
Defined.

Lemma order_domain_values_is_descending_witness :
  ∃ counters,
    result_map (ruled_out corner row3 [] (start_domains corner)) ["BAA"; "AAB"; "AAA"]
      = Ok counters ∧
    Sorted (λ n m, m ≤ n) counters.
Proof.
  apply (order_domain_values_is_descending corner row3 [] (start_domains corner)).
  vm_compute. reflexivity.
Defined.

Lemma ac3_keeps_solutions_witness :
  admits cat_tar (start_domains cat_tar)
    (λ x, if decide (x = row3) then "CAT" else "TAR") ∧
  true = true.
Proof.
  apply (ac3_keeps_solutions cat_tar None (init_domains cat_tar) true
           (start_domains cat_tar)).
  - apply cat_tar_structure_ok.
  - apply cat_tar_solution.
  - apply cat_tar_admits.
  - discriminate.
  - vm_compute. reflexivity.
Defined.

(** [twins] has two rows and one word: [solve] returns [None], and giving
    ABC to both rows is indeed no solution. *)
Lemma solve_None_no_solution_witness : ¬ solution twins (λ _, "ABC").
Proof.
  apply (solve_None_no_solution twins ([], start_domains twins)).
  - apply twins_structure_ok.
  - vm_compute. reflexivity.
Defined.

Lemma backtrack_None_exhausted_witness :
  ([] : Assignment) = [] ∧ start_domains twins = start_domains twins ∧
  ¬ (solution twins (λ _, "ABC") ∧ extends twins [] (λ _, "ABC") ∧
     admits twins (start_domains twins) (λ _, "ABC")).
Proof.
  apply (backtrack_None_exhausted twins 3 [] (start_domains twins) []
           (start_domains twins)).
  - apply twins_structure_ok.
  - vm_compute. reflexivity.
Defined.

Lemma solve_result_well_formed_witness :
  NoDup [(row3, "CAT"); (col3, "TAR")].*1 ∧
  keys [(row3, "CAT"); (col3, "TAR")] = variables cat_tar ∧
  ∀ x w, (x, w) ∈ [(row3, "CAT"); (col3, "TAR")] → w ∈ words cat_tar.
Proof.
  apply (solve_result_well_formed cat_tar _
           ([(row3, "CAT"); (col3, "TAR")],
            list_to_map [(row3, {["CAT"]}); (col3, {["TAR"]})])).
  vm_compute. reflexivity.
Defined.

Lemma solve_raises_without_word_of_length_witness :
  ∃ e st, solve no_fit = Some (Raise e, st).
Proof.
  apply (solve_raises_without_word_of_length no_fit row3).
  - vm_compute. reflexivity.
  - intros w Hw. unfold no_fit, crossword_of in Hw. cbn [words] in Hw.
    apply elem_of_list_to_set, list_elem_of_singleton in Hw. by subst.
Defined.

(** The grid of the solution of [cat_tar], CAT across and TAR down, on 3
    rows and 3 columns. *)
Lemma letter_grid_shape_witness :
  List.length [[Some "C"; Some "A"; Some "T"]; [None; None; Some "A"];
               [None; None; Some "R"]]%char = 3 ∧
  ∀ row, row ∈ [[Some "C"; Some "A"; Some "T"]; [None; None; Some "A"];
                [None; None; Some "R"]]%char → List.length row = 3.
Proof.
  apply (letter_grid_shape 3 3 [(row3, "CAT"); (col3, "TAR")]).
  vm_compute. reflexivity.
Defined.

Lemma letter_grid_exceptions_witness : fits 3 3 (col3, "TAR").
Proof.
  apply (proj1 (proj1 (letter_grid_exceptions 3 3 [(row3, "CAT"); (col3, "TAR")]))).
  - eexists. vm_compute. reflexivity.
  - right. left.
Defined.

Lemma letter_grid_cells_witness :
  (∀ ch, cell [[Some "C"; Some "A"; Some "T"]; [None; None; Some "A"];
               [None; None; Some "R"]]%char 0 2 = Some (Some ch) ↔
     ∃ A1 item A2, [(row3, "CAT"); (col3, "TAR")] = A1 ++ item :: A2 ∧
       writes item 0 2 ch ∧ ∀ item' ch', item' ∈ A2 → ¬ writes item' 0 2 ch') ∧
  (cell [[Some "C"; Some "A"; Some "T"]; [None; None; Some "A"];
         [None; None; Some "R"]]%char 0 2 = Some None ↔
     0 < 3 ∧ 2 < 3 ∧ ∀ item ch, item ∈ [(row3, "CAT"); (col3, "TAR")] →
       ¬ writes item 0 2 ch).
Proof.
  apply (letter_grid_cells 3 3 [(row3, "CAT"); (col3, "TAR")]).
  vm_compute. reflexivity.
Defined.

Lemma backtrack_returns_extension_witness :
  ([(row3, "CAT"); (col3, "TAR")],
   (list_to_map [(row3, {["CAT"]}); (col3, {["TAR"]})] : Domains)).1
    = [(row3, "CAT"); (col3, "TAR")] ∧
  [(row3, "CAT")] `prefix_of` [(row3, "CAT"); (col3, "TAR")] ∧
  complete cat_tar [(row3, "CAT"); (col3, "TAR")].
Proof.
  apply (backtrack_returns_extension cat_tar 2 [(row3, "CAT")]
           (<[row3 := {["CAT"]}]> (start_domains cat_tar))).
  vm_compute. reflexivity.
Defined.
